(** * Interval sets of t_iset.c: the AVL tree and the IADD command

    A shallow embedding of [src/t_iset.c].  The C code works on a graph of
    heap-allocated [avlNode]s linked by [left], [right] and [parent]
    pointers, so the embedding keeps the pointers: a node pointer is an
    index into the list of allocated nodes ([None] is [NULL]), every C
    function is a computation over the store, and a dereference of [NULL]
    is an explicit outcome rather than something the model rules out. *)

From Stdlib Require Import ZArith Lia Ascii String Sorted.
From stdpp Require Import base option list gmap strings.

Local Open Scope Z_scope.

(** ** Data *)

(** Scores are C doubles.  The tree never computes with them: it stores
    them and compares them with [<] and [>].  A score is a number or NaN;
    numbers are modelled by integers, on which [<] and [>] are the integer
    order, and a comparison with NaN on either side is false, as in C. *)
Inductive score :=
  | Num (z : Z)
  | NaN.

Coercion Num : Z >-> score.

(** [a < b] and [a > b] on doubles. *)
Definition score_lt (a b : score) : bool :=
  match a, b with
  | Num x, Num y => x <? y
  | _, _ => false
  end.

Definition score_gt (a b : score) : bool := score_lt b a.

(** [avlNode *]: [None] is [NULL], [Some a] is the node allocated [a]-th. *)
Definition nodeptr := option nat.

(** [robj *] as the [obj] field of a node holds it.  The command stores a
    freshly made [avlNode] there, whose own [obj] is the tree. *)
Inductive objref :=
  | ObjNull
  | ObjNode (a : nat)
  | ObjTree (t : nat)
  | ObjVal (s : string).

Record avlNode := mkNode {
  leftScore : score;
  rightScore : score;
  subLeftMax : score;
  subRightMax : score;
  balance : Z;
  left : nodeptr;
  right : nodeptr;
  parent : nodeptr;
  obj : objref
}.

(** The structs are declared in redis.h, which is not part of the sources;
    the fields are the ones t_iset.c uses.  [balance] and [size] are small
    counters there and are modelled without a bound. *)
Record avl := mkAvl {
  size : Z;
  root : nodeptr
}.

(** What a key of the database holds: the tree an IADD stored under it
    ([dbAdd] is given the [avl *] that [avlCreate] returned), or an object of
    another type. *)
Inductive dbval :=
  | DbISet (t : nat)
  | DbOther.

(** Calls that release memory, in the order they happen. *)
Inductive event :=
  | EvDecrRef (o : objref)
  | EvFreeNode (a : nat)
  | EvFreeTree (t : nat).

Record store := mkStore {
  nodes : list avlNode;
  trees : list avl;
  dict : gmap string dbval;
  log : list event
}.

Definition empty_store : store := mkStore [] [] ∅ [].

(** ** Computations *)

Inductive fault :=
  | NullDeref
  | Dangling
  | OutOfBounds.

Inductive outcome (A : Type) :=
  | Ok (a : A)
  | Crash (f : fault)
  | OutOfFuel.
Arguments Ok {A} a.
Arguments Crash {A} f.
Arguments OutOfFuel {A}.

Definition M (A : Type) : Type := store -> outcome (A * store).

Definition ret {A} (a : A) : M A := fun s => Ok (a, s).

Definition bind {A B} (m : M A) (k : A -> M B) : M B :=
  fun s => match m s with
           | Ok (a, s') => k a s'
           | Crash f => Crash f
           | OutOfFuel => OutOfFuel
           end.

Definition out_of_fuel {A} : M A := fun _ => OutOfFuel.

Notation "x <- m ;; k" := (bind m (fun x => k))
  (at level 100, m at next level, right associativity).
Notation "m ;;; k" := (bind m (fun _ => k))
  (at level 100, right associativity).

(** [p->field] for reading: [p] must not be [NULL]. *)
Definition load (p : nodeptr) : M avlNode :=
  fun s => match p with
           | None => Crash NullDeref
           | Some a => match nodes s !! a with
                       | Some nd => Ok (nd, s)
                       | None => Crash Dangling
                       end
           end.

(** [p->field = v]: the node at [p] is rewritten by [f]. *)
Definition modify (p : nodeptr) (f : avlNode -> avlNode) : M unit :=
  fun s => match p with
           | None => Crash NullDeref
           | Some a => match nodes s !! a with
                       | Some nd =>
                           Ok (tt, mkStore (<[a := f nd]> (nodes s)) (trees s)
                                           (dict s) (log s))
                       | None => Crash Dangling
                       end
           end.

Definition set_balance (v : Z) (nd : avlNode) : avlNode :=
  mkNode (leftScore nd) (rightScore nd) (subLeftMax nd) (subRightMax nd)
         v (left nd) (right nd) (parent nd) (obj nd).
Definition set_left (v : nodeptr) (nd : avlNode) : avlNode :=
  mkNode (leftScore nd) (rightScore nd) (subLeftMax nd) (subRightMax nd)
         (balance nd) v (right nd) (parent nd) (obj nd).
Definition set_right (v : nodeptr) (nd : avlNode) : avlNode :=
  mkNode (leftScore nd) (rightScore nd) (subLeftMax nd) (subRightMax nd)
         (balance nd) (left nd) v (parent nd) (obj nd).
Definition set_parent (v : nodeptr) (nd : avlNode) : avlNode :=
  mkNode (leftScore nd) (rightScore nd) (subLeftMax nd) (subRightMax nd)
         (balance nd) (left nd) (right nd) v (obj nd).

(** [zmalloc(sizeof(avlNode))] followed by the initialisation [nd]. *)
Definition alloc_node (nd : avlNode) : M nat :=
  fun s => Ok (length (nodes s),
               mkStore (nodes s ++ [nd]) (trees s) (dict s) (log s)).

Definition alloc_tree (t : avl) : M nat :=
  fun s => Ok (length (trees s),
               mkStore (nodes s) (trees s ++ [t]) (dict s) (log s)).

Definition load_tree (t : nat) : M avl :=
  fun s => match trees s !! t with
           | Some tr => Ok (tr, s)
           | None => Crash Dangling
           end.

Definition store_tree (t : nat) (tr : avl) : M unit :=
  fun s => match trees s !! t with
           | Some _ => Ok (tt, mkStore (nodes s) (<[t := tr]> (trees s))
                                       (dict s) (log s))
           | None => Crash Dangling
           end.

Definition emit (e : event) : M unit :=
  fun s => Ok (tt, mkStore (nodes s) (trees s) (dict s) (log s ++ [e])).

(** ** The tree *)

Definition avlCreate : M nat := alloc_tree (mkAvl 0 None).

(** The node as [avlCreateNode] fills it in. *)
Definition new_node (lscore rscore : score) (o : objref) : avlNode :=
  {| leftScore := lscore;
     rightScore := rscore;
     subLeftMax := 0;
     subRightMax := 0;
     balance := 0;
     left := None;
     right := None;
     parent := None;
     obj := o |}.

Definition avlCreateNode (lscore rscore : score) (o : objref) : M nat :=
  alloc_node (new_node lscore rscore o).

Definition avlNodeCmp (a b : avlNode) : Z :=
  if score_lt (leftScore a) (leftScore b) then -1
  else if score_gt (leftScore a) (leftScore b) then 1
  else if score_gt (rightScore a) (rightScore b) then -1
  else if score_lt (rightScore a) (rightScore b) then 1
  else 0.

(** [avlNodeCmp(a,b)] on pointers. *)
Definition cmp_at (a b : nodeptr) : M Z :=
  na <- load a ;;
  nb <- load b ;;
  ret (avlNodeCmp na nb).

(** The last statement of both rotations: hang [newRoot] under its new
    parent, on the side the comparator says. *)
Definition relink_parent (newRoot : nodeptr) : M unit :=
  nr <- load newRoot ;;
  match parent nr with
  | None => ret tt
  | Some _ =>
      c <- cmp_at (parent nr) newRoot ;;
      if c >? -1 then modify (parent nr) (set_left newRoot)
      else modify (parent nr) (set_right newRoot)
  end.

Definition avlLeftRotation (locNode : nodeptr) : M unit :=
  loc <- load locNode ;;
  let newRoot := right loc in
  nr <- load newRoot ;;
  modify locNode (set_right (left nr)) ;;;
  modify newRoot (set_left locNode) ;;;
  loc <- load locNode ;;
  (match right loc with
   | Some _ => modify (right loc) (set_parent locNode)
   | None => ret tt
   end) ;;;
  loc <- load locNode ;;
  modify newRoot (set_parent (parent loc)) ;;;
  modify locNode (set_parent newRoot) ;;;
  relink_parent newRoot.

Definition avlRightRotation (locNode : nodeptr) : M unit :=
  loc <- load locNode ;;
  let newRoot := left loc in
  nr <- load newRoot ;;
  modify locNode (set_left (right nr)) ;;;
  modify newRoot (set_right locNode) ;;;
  loc <- load locNode ;;
  (match left loc with
   | Some _ => modify (right loc) (set_parent locNode)
   | None => ret tt
   end) ;;;
  loc <- load locNode ;;
  modify newRoot (set_parent (parent loc)) ;;;
  modify locNode (set_parent newRoot) ;;;
  relink_parent newRoot.

Definition avlResetBalance (locNode : nodeptr) : M unit :=
  loc <- load locNode ;;
  (if balance loc =? -1 then
     modify (left loc) (set_balance 0) ;;;
     loc <- load locNode ;;
     modify (right loc) (set_balance 1)
   else if balance loc =? 0 then
     modify (left loc) (set_balance 0) ;;;
     loc <- load locNode ;;
     modify (right loc) (set_balance 0)
   else if balance loc =? 1 then
     modify (left loc) (set_balance (-1)) ;;;
     loc <- load locNode ;;
     modify (right loc) (set_balance 0)
   else ret tt) ;;;
  modify locNode (set_balance 0).

(** The four blocks of [avlInsertNode], named after the branch they are in.
    [attach_left] is the body of [if (!locNode->left)]; [grown_left] is the
    body of [if (avlInsertNode(locNode->left,insertNode))]. *)
Definition attach_left (locNode insertNode : nodeptr) : M Z :=
  modify locNode (set_left insertNode) ;;;
  modify insertNode (set_parent locNode) ;;;
  loc <- load locNode ;;
  modify locNode (set_balance (balance loc - 1)) ;;;
  loc <- load locNode ;;
  ret (if balance loc =? 0 then 1 else 0).

Definition grown_left (locNode : nodeptr) : M Z :=
  loc <- load locNode ;;
  modify locNode (set_balance (balance loc - 1)) ;;;
  loc <- load locNode ;;
  if balance loc =? 0 then ret 0
  else if balance loc =? -1 then ret 1
  else
    l <- load (left loc) ;;
    (if balance l <? 0 then
       avlRightRotation locNode ;;;
       loc <- load locNode ;;
       modify (right loc) (set_balance 0) ;;;
       loc <- load locNode ;;
       modify (parent loc) (set_balance 0)
     else
       avlLeftRotation (left loc) ;;;
       avlRightRotation locNode ;;;
       loc <- load locNode ;;
       avlResetBalance (parent loc)) ;;;
    ret 0.

Definition attach_right (locNode insertNode : nodeptr) : M Z :=
  modify locNode (set_right insertNode) ;;;
  modify insertNode (set_parent locNode) ;;;
  loc <- load locNode ;;
  modify locNode (set_balance (balance loc + 1)) ;;;
  loc <- load locNode ;;
  ret (if balance loc =? 0 then 1 else 0).

Definition grown_right (locNode : nodeptr) : M Z :=
  loc <- load locNode ;;
  modify locNode (set_balance (balance loc - 1)) ;;;
  loc <- load locNode ;;
  if balance loc =? 0 then ret 0
  else if balance loc =? -1 then ret 1
  else
    r <- load (right loc) ;;
    (if balance r >? 0 then
       avlLeftRotation locNode ;;;
       loc <- load locNode ;;
       modify (left loc) (set_balance 0) ;;;
       loc <- load locNode ;;
       modify (parent loc) (set_balance 0)
     else
       avlRightRotation (right loc) ;;;
       avlLeftRotation locNode ;;;
       loc <- load locNode ;;
       avlResetBalance (parent loc)) ;;;
    ret 0.

(** [avlInsertNode] recurses along child pointers of a graph that nothing
    forces to be a tree, hence the fuel: one unit per call. *)
Fixpoint avlInsertNode (fuel : nat) (locNode insertNode : nodeptr) : M Z :=
  match fuel with
  | O => out_of_fuel
  | S fuel' =>
      c <- cmp_at locNode insertNode ;;
      loc <- load locNode ;;
      if c >? -1 then
        match left loc with
        | None => attach_left locNode insertNode
        | Some _ =>
            grew <- avlInsertNode fuel' (left loc) insertNode ;;
            if grew =? 0 then ret 0 else grown_left locNode
        end
      else
        match right loc with
        | None => attach_right locNode insertNode
        | Some _ =>
            grew <- avlInsertNode fuel' (right loc) insertNode ;;
            if grew =? 0 then ret 0 else grown_right locNode
        end
  end.

Definition avlInsert (fuel : nat) (tree : nat) (lscore rscore : score)
    (o : objref) : M nat :=
  an <- avlCreateNode lscore rscore o ;;
  tr <- load_tree tree ;;
  (match root tr with
   | None => store_tree tree (mkAvl (size tr) (Some an))
   | Some _ => g <- avlInsertNode fuel (root tr) (Some an) ;; ret tt
   end) ;;;
  tr <- load_tree tree ;;
  store_tree tree (mkAvl (size tr + 1) (root tr)) ;;;
  ret an.

(** [avlFreeNode] and [avlFree].  The recursion is on a pointer, so it takes
    fuel as well. *)
Fixpoint avlFreeNode (fuel : nat) (node : nodeptr) : M unit :=
  match fuel with
  | O => out_of_fuel
  | S fuel' =>
      nd <- load node ;;
      (match obj nd with
       | ObjNull => ret tt
       | o => emit (EvDecrRef o)
       end) ;;;
      (match left nd with
       | None => avlFreeNode fuel' (left nd)
       | Some _ => ret tt
       end) ;;;
      nd <- load node ;;
      (match right nd with
       | None => avlFreeNode fuel' (right nd)
       | Some _ => ret tt
       end) ;;;
      match node with
      | Some a => emit (EvFreeNode a)
      | None => ret tt
      end
  end.

Definition avlFree (fuel : nat) (tree : nat) : M unit :=
  tr <- load_tree tree ;;
  (match root tr with
   | Some _ => avlFreeNode fuel (root tr)
   | None => ret tt
   end) ;;;
  emit (EvFreeTree tree).

(** ** Observations on a tree *)

(** The nodes reachable from [p] by child links, left subtree first, then
    the node, then the right subtree.  [None] when the fuel runs out or a
    pointer leads nowhere. *)
Fixpoint inorder (fuel : nat) (ns : list avlNode) (p : nodeptr)
    : option (list nat) :=
  match fuel with
  | O => None
  | S fuel' =>
      match p with
      | None => Some []
      | Some a =>
          match ns !! a with
          | None => None
          | Some nd =>
              match inorder fuel' ns (left nd), inorder fuel' ns (right nd) with
              | Some l, Some r => Some (l ++ a :: r)
              | _, _ => None
              end
          end
      end
  end.

Fixpoint height (fuel : nat) (ns : list avlNode) (p : nodeptr) : option Z :=
  match fuel with
  | O => None
  | S fuel' =>
      match p with
      | None => Some 0
      | Some a =>
          match ns !! a with
          | None => None
          | Some nd =>
              match height fuel' ns (left nd), height fuel' ns (right nd) with
              | Some l, Some r => Some (1 + Z.max l r)
              | _, _ => None
              end
          end
      end
  end.

Definition interval_of (ns : list avlNode) (a : nat) : option (score * score) :=
  match ns !! a with
  | Some nd => Some (leftScore nd, rightScore nd)
  | None => None
  end.

(** The intervals an in-order traversal of tree [t] yields. *)
Definition traverse (fuel : nat) (s : store) (t : nat)
    : option (list (score * score)) :=
  match trees s !! t with
  | None => None
  | Some tr =>
      match inorder fuel (nodes s) (root tr) with
      | None => None
      | Some addrs => mapM (interval_of (nodes s)) addrs
      end
  end.

(** A run of [avlInsert]s on one tree, in order. *)
Fixpoint insert_all (fuel : nat) (tree : nat)
    (ivs : list (score * score * objref)) : M unit :=
  match ivs with
  | [] => ret tt
  | (l, r, o) :: rest =>
      avlInsert fuel tree l r o ;;; insert_all fuel tree rest
  end.

Definition from_empty (fuel : nat) (ivs : list (score * score * objref))
    : outcome (nat * store) :=
  (t <- avlCreate ;; insert_all fuel t ivs ;;; ret t) empty_store.

(** ** The IADD command *)

Inductive reply :=
  | SyntaxErr
  | WrongTypeErr
  | NotDoubleErr
  | ReplyInt (n : Z).

(** [c->argv[i]]: the argument vector holds [argc] objects, and the
    command indexes it with whatever its arithmetic gives. *)
Definition arg (argv : list string) (i : Z) : M string :=
  fun s => if i <? 0 then Crash OutOfBounds
           else match argv !! Z.to_nat i with
                | Some a => Ok (a, s)
                | None => Crash OutOfBounds
                end.

(** Modelled from the spec: [lookupKeyWrite] and [dbAdd] are declared in
    redis.h and defined in db.c, which are not part of the sources.  The
    spec has the command adapter resolve or create the interval set of a
    key: a key maps to what was stored under it, the tree of an earlier
    IADD or a value of another type. *)
Definition lookupKeyWrite (key : string) : M (option dbval) :=
  fun s => Ok (dict s !! key, s).

Definition dbAdd (key : string) (v : dbval) : M unit :=
  fun s => Ok (tt, mkStore (nodes s) (trees s) (<[key := v]> (dict s)) (log s)).

Section Command.

(** [getDoubleFromObjectOrReply] is defined in object.c, not part of the
    sources: [getDouble o] is the double it stores when it returns
    [REDIS_OK], and [None] when it replies with an error and returns
    [REDIS_ERR]. *)
Variable getDouble : string -> option score.

(** [iobj->type == REDIS_ISET] read on a tree that an earlier IADD stored
    under the key.  The command stores the [avl *] itself where an
    [robj *] is expected, [avlCreate] writes no [type], and the layouts of
    [robj] and [avl] and the constant [REDIS_ISET] are declared in redis.h,
    not part of the sources: what the read gives on tree [t] in store [s]
    is the parameter [typeIsISet s t]. *)
Variable typeIsISet : store -> nat -> bool.

Definition read_type (iobj : nat) : M bool :=
  fun s => Ok (typeIsISet s iobj, s).

(** The first loop: [mins[j]] and [maxes[j]] for [j] from the current one
    up, [n] iterations left.  [None] when an argument was not a double and
    the error reply has been sent. *)
Fixpoint parse_scores (n : nat) (j : Z) (argv : list string)
    : M (option (list (score * score))) :=
  match n with
  | O => ret (Some [])
  | S n' =>
      a <- arg argv (2 + j * 3) ;;
      match getDouble a with
      | None => ret None
      | Some mn =>
          b <- arg argv (3 + j * 3) ;;
          match getDouble b with
          | None => ret None
          | Some mx =>
              rest <- parse_scores n' (j + 1) argv ;;
              ret (option_map (cons (mn, mx)) rest)
          end
      end
  end.

(** The second loop, over the parsed [mins] and [maxes]. *)
Fixpoint add_scores (fuel : nat) (iobj : nat) (ivs : list (score * score))
    (added : Z) : M Z :=
  match ivs with
  | [] => ret added
  | (mn, mx) :: rest =>
      curobj <- avlCreateNode mn mx (ObjTree iobj) ;;
      avlInsert fuel iobj mn mx (ObjNode curobj) ;;;
      add_scores fuel iobj rest (added + 1)
  end.

Definition iaddGenericCommand (fuel : nat) (argv : list string) (incr : Z)
    : M reply :=
  let argc := Z.of_nat (length argv) in
  key <- arg argv 1 ;;
  let elements := Z.quot (argc - 2) 2 in
  if negb (Z.rem (argc - 2) 3 =? 0) then ret SyntaxErr
  else
    parsed <- parse_scores (Z.to_nat elements) 0 argv ;;
    match parsed with
    | None => ret NotDoubleErr
    | Some ivs =>
        found <- lookupKeyWrite key ;;
        match found with
        | Some DbOther => ret WrongTypeErr
        | Some (DbISet iobj) =>
            isiset <- read_type iobj ;;
            if isiset then
              added <- add_scores fuel iobj ivs 0 ;;
              ret (ReplyInt added)
            else ret WrongTypeErr
        | None =>
            iobj <- avlCreate ;;
            dbAdd key (DbISet iobj) ;;;
            added <- add_scores fuel iobj ivs 0 ;;
            ret (ReplyInt added)
        end
    end.

Definition iaddCommand (fuel : nat) (argv : list string) : M reply :=
  iaddGenericCommand fuel argv 0.

End Command.

(** A parser of decimal integers, to run the command on concrete requests. *)
Definition digit_of (c : ascii) : option Z :=
  let n := Z.of_nat (nat_of_ascii c) in
  if (48 <=? n) && (n <=? 57) then Some (n - 48) else None.

Fixpoint digits_of (s : string) (acc : Z) : option Z :=
  match s with
  | EmptyString => Some acc
  | String c rest =>
      match digit_of c with
      | Some d => digits_of rest (10 * acc + d)
      | None => None
      end
  end.

Definition parse_int (s : string) : option score :=
  match s with
  | EmptyString => None
  | String "-" rest =>
      match rest with
      | EmptyString => None
      | _ => option_map (fun z => Num (- z)) (digits_of rest 0)
      end
  | _ => option_map Num (digits_of s 0)
  end.

(** ** Notions the statements use *)

(** The larger of two scores. *)
Definition score_max (a b : score) : score :=
  if score_lt a b then b else a.

(** The true maximum of [f] over the nodes below [p], [p] included. *)
Fixpoint subtree_max (f : avlNode -> score) (fuel : nat) (ns : list avlNode)
    (p : nodeptr) : option (option score) :=
  match fuel with
  | O => None
  | S fuel' =>
      match p with
      | None => Some None
      | Some a =>
          match ns !! a with
          | None => None
          | Some nd =>
              match subtree_max f fuel' ns (left nd),
                    subtree_max f fuel' ns (right nd) with
              | Some l, Some r =>
                  let m1 := match l with Some x => score_max (f nd) x | None => f nd end in
                  Some (Some (match r with Some x => score_max m1 x | None => m1 end))
              | _, _ => None
              end
          end
      end
  end.

(** The fields of a node that say what it stores, as opposed to where it
    hangs. *)
Definition same_payload (x y : avlNode) : Prop :=
  leftScore y = leftScore x /\ rightScore y = rightScore x /\
  subLeftMax y = subLeftMax x /\ subRightMax y = subRightMax x /\
  obj y = obj x.

(** [s'] is [s] with some links and balances rewritten, nothing else. *)
Definition relinks (s s' : store) : Prop :=
  Forall2 same_payload (nodes s) (nodes s') /\
  trees s' = trees s /\ dict s' = dict s /\ log s' = log s.

(** Every completed run of [m] takes a store to one related by [R]. *)
Definition keeps {A} (R : relation store) (m : M A) : Prop :=
  forall s a s', m s = Ok (a, s') -> R s s'.

(** Every value a computation returns satisfies [P]. *)
Definition returns {A} (P : A -> Prop) (m : M A) : Prop :=
  forall s a s', m s = Ok (a, s') -> P a.

Definition zero_or_one (g : Z) : Prop := g = 0 \/ g = 1.

Definition zero_aug (nd : avlNode) : Prop :=
  subLeftMax nd = 0 /\ subRightMax nd = 0.

(** The [size] field of tree [t]. *)
Definition tree_size (s : store) (t : nat) : Z :=
  match trees s !! t with
  | Some tr => size tr
  | None => 0
  end.


(** The comparator as a function of the four scores it reads. *)
Definition score_cmp (l1 r1 l2 r2 : score) : Z :=
  avlNodeCmp (new_node l1 r1 ObjNull) (new_node l2 r2 ObjNull).

(** The order of the comparator on intervals of numbers: [x] starts before
    [y], or they start together and [x] ends no earlier. *)
Definition interval_le (x y : Z * Z) : Prop :=
  x.1 < y.1 \/ (x.1 = y.1 /\ y.2 <= x.2).

(** An interval of numbers as a pair of scores. *)
Definition num_interval (x : Z * Z) : score * score := (Num x.1, Num x.2).

(** Positions 4, 7, 10, ... of an argument vector hold the members. *)
Definition member_position (i : nat) : Prop :=
  (4 <= i)%nat /\ (i mod 3 = 1)%nat.

Definition differ_only_in_members (argv argv' : list string) : Prop :=
  length argv = length argv' /\
  forall i, ~ member_position i -> argv !! i = argv' !! i.

(** ** Concrete stores and requests *)

Definition pt (x : Z) : score * score * objref := (Num x, Num x, ObjNull).

(** The store after inserting [(1,1)], [(2,2)], [(3,3)] into a new tree. *)
Definition after_1_2_3 : store :=
  match from_empty 5 (map pt [1; 2; 3]) with
  | Ok (_, s) => s
  | _ => empty_store
  end.

(** The store after inserting [(4,4)], [(2,2)], [(0,0)], [(3,3)]. *)
Definition after_4_2_0_3 : store :=
  match from_empty 5 (map pt [4; 2; 0; 3]) with
  | Ok (_, s) => s
  | _ => empty_store
  end.

(** A root [(1,1)] and a detached node [(1,1)] to insert. *)
Definition two_equal : store :=
  mkStore [new_node 1 1 ObjNull; new_node 1 1 ObjNull] [mkAvl 1 (Some 0%nat)] ∅ [].

(** A root [(2,2)] without children and a detached node [(1,1)]. *)
Definition leaf_and_smaller : store :=
  mkStore [new_node 2 2 ObjNull; new_node 1 1 ObjNull] [mkAvl 1 (Some 0%nat)] ∅ [].

(** A root [(2,2)] with a right child [(3,3)], balance [+1], and a detached
    node [(1,1)]. *)
Definition right_heavy_and_smaller : store :=
  mkStore [set_balance 1 (set_right (Some 1%nat) (new_node 2 2 ObjNull));
           set_parent (Some 0%nat) (new_node 3 3 ObjNull);
           new_node 1 1 ObjNull]
          [mkAvl 2 (Some 0%nat)] ∅ [].

(** A tree of one node holding a member. *)
Definition one_node : store :=
  mkStore [new_node 1 5 (ObjVal "m")] [mkAvl 1 (Some 0%nat)] ∅ [].

Definition iadd_1_2_m : list string := ["IADD"; "k"; "1"; "2"; "m"]%string.
Definition iadd_1_2_n : list string := ["IADD"; "k"; "1"; "2"; "n"]%string.

(** The two extreme answers of the type read: never, and always,
    [REDIS_ISET]. *)
Definition type_never_iset (s : store) (t : nat) : bool := false.
Definition type_always_iset (s : store) (t : nat) : bool := true.

(** The store after the request [IADD k 1 2 m] on an empty database, and
    after a second such request when the type read on the stored tree gives
    [REDIS_ISET]. *)
Definition after_first_iadd : store :=
  match iaddCommand parse_int type_never_iset 5 iadd_1_2_m empty_store with
  | Ok (_, s) => s
  | _ => empty_store
  end.

Definition after_second_iadd : store :=
  match iaddCommand parse_int type_always_iset 5 iadd_1_2_m after_first_iadd with
  | Ok (_, s) => s
  | _ => empty_store
  end.

(** The store after a left rotation at the root of
    [right_heavy_and_smaller]. *)
Definition after_left_rotation : store :=
  match avlLeftRotation (Some 0%nat) right_heavy_and_smaller with
  | Ok (_, s) => s
  | _ => empty_store
  end.

(** The store after inserting [(1,5)] with member [m] into the tree of
    [leaf_and_smaller]. *)
Definition after_insert_1_5 : store :=
  match avlInsert 5 0 1 5 (ObjVal "m") leaf_and_smaller with
  | Ok (_, s) => s
  | _ => empty_store
  end.

(** Four nodes in a chain: [(10,10)] at 0, its right child [(20,20)] at 1,
    whose right child [(30,30)] at 2 has the left child [(25,25)] at 3. *)
Definition right_chain : store :=
  mkStore [set_right (Some 1%nat) (new_node 10 10 ObjNull);
           set_parent (Some 0%nat) (set_right (Some 2%nat) (new_node 20 20 ObjNull));
           set_parent (Some 1%nat) (set_left (Some 3%nat) (new_node 30 30 ObjNull));
           set_parent (Some 2%nat) (new_node 25 25 ObjNull)]
          [mkAvl 4 (Some 0%nat)] ∅ [].

(** The mirror image: [(40,40)] at 0, its left child [(30,30)] at 1, whose
    left child [(20,20)] at 2 has the right child [(25,25)] at 3; and
    [(35,35)] at 4 is the right child of node 1. *)
Definition left_chain : store :=
  mkStore [set_left (Some 1%nat) (new_node 40 40 ObjNull);
           set_parent (Some 0%nat)
             (set_right (Some 4%nat) (set_left (Some 2%nat) (new_node 30 30 ObjNull)));
           set_parent (Some 1%nat) (set_right (Some 3%nat) (new_node 20 20 ObjNull));
           set_parent (Some 2%nat) (new_node 25 25 ObjNull);
           set_parent (Some 1%nat) (new_node 35 35 ObjNull)]
          [mkAvl 5 (Some 0%nat)] ∅ [].

(** [left_chain] without node 4: node 1 has no right child. *)
Definition left_chain_bare : store :=
  mkStore [set_left (Some 1%nat) (new_node 40 40 ObjNull);
           set_parent (Some 0%nat) (set_left (Some 2%nat) (new_node 30 30 ObjNull));
           set_parent (Some 1%nat) (set_right (Some 3%nat) (new_node 20 20 ObjNull));
           set_parent (Some 2%nat) (new_node 25 25 ObjNull)]
          [mkAvl 4 (Some 0%nat)] ∅ [].

(** A database where the key [k] holds a value of another type. *)
Definition other_typed_key : store :=
  mkStore [] [] {[ "k"%string := DbOther ]} [].

(** ** Reasoning about computations *)

Lemma bind_Ok {A B} (m : M A) (k : A -> M B) s r :
  bind m k s = Ok r <-> exists a s1, m s = Ok (a, s1) /\ k a s1 = Ok r.
Proof.
  unfold bind. split.
  - destruct (m s) as [[a s1]| |]; [eauto | discriminate | discriminate].
  - intros (a & s1 & -> & H). exact H.
Qed.

Lemma bind_load a nd s {B} (k : avlNode -> M B) :
  nodes s !! a = Some nd -> bind (load (Some a)) k s = k nd s.
Proof. intros Ha. unfold bind, load. rewrite Ha. reflexivity. Qed.

Lemma bind_step {A B} (m : M A) (k : A -> M B) s x s1 :
  m s = Ok (x, s1) -> bind m k s = k x s1.
Proof. intros H. unfold bind. rewrite H. reflexivity. Qed.

Lemma bind_crash {A B} (m : M A) (k : A -> M B) s f :
  m s = Crash f -> bind m k s = Crash f.
Proof. intros H. unfold bind. rewrite H. reflexivity. Qed.

Lemma same_payload_refl nd : same_payload nd nd.
Proof. repeat split. Qed.

Lemma same_payload_trans x y z :
  same_payload x y -> same_payload y z -> same_payload x z.
Proof. unfold same_payload. intuition congruence. Qed.

#[local] Hint Resolve same_payload_refl : core.

#[export] Instance relinks_preorder : PreOrder relinks.
Proof.
  split.
  - intros s. repeat split. apply Forall2_same_length_lookup. split; [done|].
    intros i x y Hx Hy. rewrite Hx in Hy. injection Hy as <-. auto.
  - intros s1 s2 s3 (H1 & T1 & D1 & L1) (H2 & T2 & D2 & L2).
    repeat split; [ | congruence | congruence | congruence].
    eapply Forall2_trans; [ | exact H1 | exact H2].
    intros x y z. apply same_payload_trans.
Qed.

Section Keeps.
Context (R : relation store) `{!PreOrder R}.

Lemma keeps_ret {A} (a : A) : keeps R (ret a).
Proof. intros s b s' [= _ <-]. reflexivity. Qed.

Lemma keeps_bind {A B} (m : M A) (k : A -> M B) :
  keeps R m -> (forall a, keeps R (k a)) -> keeps R (bind m k).
Proof.
  intros Hm Hk s b s' H. apply bind_Ok in H as (a & s1 & H1 & H2).
  transitivity s1; [exact (Hm _ _ _ H1) | exact (Hk _ _ _ _ H2)].
Qed.

Lemma keeps_load p : keeps R (load p).
Proof.
  intros s nd s' H. unfold load in H.
  destruct p as [a|]; [ | discriminate].
  destruct (nodes s !! a); [ | discriminate].
  injection H as _ <-. reflexivity.
Qed.
End Keeps.

Lemma keeps_modify p f :
  (forall nd, same_payload nd (f nd)) -> keeps relinks (modify p f).
Proof.
  intros Hf s u s' H. unfold modify in H.
  destruct p as [a|]; [ | discriminate].
  destruct (nodes s !! a) as [nd|] eqn:Ha; [ | discriminate].
  injection H as _ <-. repeat split; simpl.
  rewrite <- (list_insert_id (nodes s) a nd Ha) at 1.
  apply Forall2_insert; [ | apply Hf].
  apply (@reflexivity _ _ (@PreOrder_Reflexive _ _ relinks_preorder) s).
Qed.

Lemma set_left_payload v nd : same_payload nd (set_left v nd).
Proof. repeat split. Qed.
Lemma set_right_payload v nd : same_payload nd (set_right v nd).
Proof. repeat split. Qed.
Lemma set_parent_payload v nd : same_payload nd (set_parent v nd).
Proof. repeat split. Qed.
Lemma set_balance_payload v nd : same_payload nd (set_balance v nd).
Proof. repeat split. Qed.

#[local] Hint Resolve set_left_payload set_right_payload set_parent_payload
  set_balance_payload : core.

(** One step through the text of a computation. *)
Ltac keeps_step :=
  lazymatch goal with
  | |- keeps ?R (bind _ _) => apply (keeps_bind R); [ | intros ?; cbv beta]
  | |- keeps ?R (ret _) => apply (keeps_ret R)
  | |- keeps ?R (load _) => apply (keeps_load R)
  | |- keeps _ (modify _ _) => apply keeps_modify; intros; auto
  | |- keeps _ (if ?b then _ else _) => destruct b
  | |- keeps _ (match ?x with _ => _ end) => destruct x
  end.

Ltac keeps_all := repeat keeps_step.

Lemma cmp_at_relinks a b : keeps relinks (cmp_at a b).
Proof. unfold cmp_at. keeps_all. Qed.

Lemma relink_parent_relinks p : keeps relinks (relink_parent p).
Proof. unfold relink_parent. keeps_all; apply cmp_at_relinks. Qed.

Lemma avlLeftRotation_relinks p : keeps relinks (avlLeftRotation p).
Proof. unfold avlLeftRotation. cbv zeta. keeps_all; apply relink_parent_relinks. Qed.

Lemma avlRightRotation_relinks p : keeps relinks (avlRightRotation p).
Proof. unfold avlRightRotation. cbv zeta. keeps_all; apply relink_parent_relinks. Qed.

Lemma avlResetBalance_relinks p : keeps relinks (avlResetBalance p).
Proof. unfold avlResetBalance. keeps_all. Qed.

Ltac rotation_relinks :=
  lazymatch goal with
  | |- keeps _ (avlLeftRotation _) => apply avlLeftRotation_relinks
  | |- keeps _ (avlRightRotation _) => apply avlRightRotation_relinks
  | |- keeps _ (avlResetBalance _) => apply avlResetBalance_relinks
  end.

Lemma attach_left_relinks p q : keeps relinks (attach_left p q).
Proof. unfold attach_left. keeps_all. Qed.

Lemma attach_right_relinks p q : keeps relinks (attach_right p q).
Proof. unfold attach_right. keeps_all. Qed.

Lemma grown_left_relinks p : keeps relinks (grown_left p).
Proof.
  unfold grown_left.
  keeps_all; rotation_relinks.
Qed.

Lemma grown_right_relinks p : keeps relinks (grown_right p).
Proof.
  unfold grown_right.
  keeps_all; rotation_relinks.
Qed.

(** [avlInsertNode] rewrites links and balances and nothing else: scores,
    augmentation fields and payloads of all nodes, the trees, the database
    and the log are as before. *)
Lemma avlInsertNode_relinks fuel :
  forall p q, keeps relinks (avlInsertNode fuel p q).
Proof.
  induction fuel as [|fuel IH]; intros p q.
  - intros s a s' H. discriminate.
  - cbn [avlInsertNode].
    keeps_all;
      lazymatch goal with
      | |- keeps _ (cmp_at _ _) => apply cmp_at_relinks
      | |- keeps _ (attach_left _ _) => apply attach_left_relinks
      | |- keeps _ (attach_right _ _) => apply attach_right_relinks
      | |- keeps _ (grown_left _) => apply grown_left_relinks
      | |- keeps _ (grown_right _) => apply grown_right_relinks
      | |- keeps _ (avlInsertNode _ _ _) => apply IH
      end.
Qed.

(** What a completed [avlInsert] does to the store. *)
Lemma avlInsert_effect fuel t l r o s a s' :
  avlInsert fuel t l r o s = Ok (a, s') ->
  a = length (nodes s) /\
  Forall2 same_payload (nodes s ++ [new_node l r o]) (nodes s') /\
  dict s' = dict s /\ log s' = log s /\
  exists tr rt, trees s !! t = Some tr /\
                trees s' = <[t := mkAvl (size tr + 1) rt]> (trees s).
Proof.
  unfold avlInsert, avlCreateNode. intros H.
  apply bind_Ok in H as (an & s1 & Halloc & H).
  injection Halloc as <- <-.
  apply bind_Ok in H as (tr & s2 & Htr & H).
  unfold load_tree in Htr. simpl in Htr.
  destruct (trees s !! t) as [tr0|] eqn:Et; [ | discriminate].
  injection Htr as <- <-.
  apply bind_Ok in H as ([] & s3 & Hmid & H).
  apply bind_Ok in H as (tr3 & s4 & Htr3 & H).
  apply bind_Ok in H as ([] & s5 & Hst & H).
  injection H as <- <-.
  assert (Hs3 : Forall2 same_payload (nodes s ++ [new_node l r o]) (nodes s3) /\
                dict s3 = dict s /\ log s3 = log s /\
                exists rt, trees s3 = <[t := mkAvl (size tr0) rt]> (trees s)).
  { destruct (root tr0) as [rt|] eqn:Er.
    - apply bind_Ok in Hmid as (g & s3' & Hins & Hret).
      injection Hret as <-.
      apply avlInsertNode_relinks in Hins as (Hn & Ht & Hd & Hl). simpl in *.
      repeat split; try assumption. exists (Some rt).
      rewrite Ht. symmetry. rewrite <- Er. destruct tr0. apply list_insert_id.
      exact Et.
    - unfold store_tree in Hmid. simpl in Hmid. rewrite Et in Hmid.
      injection Hmid as <-. simpl. repeat split; eauto.
      apply (@reflexivity _ _ (@PreOrder_Reflexive _ _ relinks_preorder)
               (mkStore (nodes s ++ [new_node l r o]) (trees s) (dict s) (log s))). }
  destruct Hs3 as (Hn & Hd & Hl & rt & Ht).
  unfold load_tree in Htr3.
  destruct (trees s3 !! t) as [tr3'|] eqn:Et3; [ | discriminate].
  injection Htr3 as <- <-.
  unfold store_tree in Hst. rewrite Et3 in Hst. injection Hst as <-. simpl.
  repeat split; try assumption.
  exists tr0, (root tr3'). split; [reflexivity|].
  rewrite Ht in Et3 |- *.
  rewrite list_lookup_insert_eq in Et3 by (eapply lookup_lt_Some; exact Et).
  injection Et3 as <-. simpl. apply list_insert_insert_eq.
Qed.

(** ** Node construction *)

(** C9, as the code has it: [avlCreateNode] returns a fresh node with the
    given scores and payload, balance 0, no children and no parent, and
    both augmentation fields set to 0 (not to the node's own bounds). *)
Theorem avlCreateNode_fields (l r : score) (o : objref) (s : store) :
  exists s' nd,
    avlCreateNode l r o s = Ok (length (nodes s), s') /\
    nodes s' !! length (nodes s) = Some nd /\
    leftScore nd = l /\ rightScore nd = r /\ obj nd = o /\
    balance nd = 0 /\
    left nd = None /\ right nd = None /\ parent nd = None /\
    subLeftMax nd = 0 /\ subRightMax nd = 0.
Proof.
  eexists _, (new_node l r o). split; [reflexivity|]. split.
  - simpl. rewrite lookup_app_r by lia.
    replace (length (nodes s) - length (nodes s))%nat with 0%nat by lia.
    reflexivity.
  - repeat split.
Qed.

(** C9 as stated fails: the node made for the interval [(1,2)] has
    [subLeftMax = 0] and [subRightMax = 0], not 1 and 2. *)
Lemma avlCreateNode_aug_not_own_bounds :
  exists s' nd,
    avlCreateNode 1 2 ObjNull empty_store = Ok (0%nat, s') /\
    nodes s' !! 0%nat = Some nd /\
    subLeftMax nd <> leftScore nd /\ subRightMax nd <> rightScore nd.
Proof.
  eexists _, _. split; [reflexivity|]. split; [reflexivity|].
  split; discriminate.
Qed.

(** ** The augmentation fields *)

Lemma zero_aug_payload l l' :
  Forall2 same_payload l l' -> Forall zero_aug l -> Forall zero_aug l'.
Proof.
  intros H2 H. eapply Forall2_Forall_r; [exact H2|].
  eapply Forall_impl; [exact H|].
  intros x [Hl Hr] y (_ & _ & El & Er & _). split; congruence.
Qed.

Lemma avlInsert_zero_aug fuel t l r o s a s' :
  avlInsert fuel t l r o s = Ok (a, s') ->
  Forall zero_aug (nodes s) -> Forall zero_aug (nodes s').
Proof.
  intros H Hz. apply avlInsert_effect in H as (_ & Hn & _).
  eapply zero_aug_payload; [exact Hn|].
  apply Forall_app. split; [exact Hz|].
  constructor; [split; reflexivity | constructor].
Qed.

Lemma insert_all_zero_aug fuel t ivs :
  forall s u s', insert_all fuel t ivs s = Ok (u, s') ->
  Forall zero_aug (nodes s) -> Forall zero_aug (nodes s').
Proof.
  induction ivs as [|[[l r] o] ivs IH]; intros s u s' H Hz.
  - injection H as _ <-. exact Hz.
  - cbn [insert_all] in H. apply bind_Ok in H as (a & s1 & H1 & H2).
    eapply IH; [exact H2|]. eapply avlInsert_zero_aug; eauto.
Qed.

(** C3, as the code has it: after any run of [avlInsert]s from an empty tree
    that completes, every node has [subLeftMax = 0] and [subRightMax = 0];
    the fields are set at creation and never written again. *)
Theorem inserts_leave_aug_zero fuel ivs t s :
  from_empty fuel ivs = Ok (t, s) ->
  Forall zero_aug (nodes s).
Proof.
  unfold from_empty. intros H.
  apply bind_Ok in H as (t0 & s1 & Hc & H).
  injection Hc as <- <-.
  apply bind_Ok in H as (u & s2 & Hi & H).
  injection H as _ <-.
  eapply insert_all_zero_aug; [exact Hi|]. constructor.
Qed.

Lemma inserts_leave_aug_zero_witness :
  from_empty 5 (map pt [1; 2; 3]) = Ok (0%nat, after_1_2_3) /\
  Forall zero_aug (nodes after_1_2_3).
Proof.
  split; [vm_compute; reflexivity|].
  apply (inserts_leave_aug_zero 5 (map pt [1; 2; 3]) 0%nat).
  vm_compute. reflexivity.
Defined.

(** C3 as stated fails: after inserting the single interval [(1,2)] the
    root's subtree has maximal [leftScore] 1 and maximal [rightScore] 2,
    and the root's [subLeftMax] and [subRightMax] are not these. *)
Lemma aug_not_subtree_max :
  exists s nd,
    from_empty 5 [(Num 1, Num 2, ObjNull)] = Ok (0%nat, s) /\
    trees s !! 0%nat = Some (mkAvl 1 (Some 0%nat)) /\
    nodes s !! 0%nat = Some nd /\
    subtree_max leftScore 5 (nodes s) (Some 0%nat) = Some (Some (Num 1)) /\
    subtree_max rightScore 5 (nodes s) (Some 0%nat) = Some (Some (Num 2)) /\
    subLeftMax nd <> Num 1 /\ subRightMax nd <> Num 2.
Proof.
  eexists _, _. split; [vm_compute; reflexivity|].
  repeat split; discriminate.
Qed.

(** ** The comparator and the insert walk *)

Lemma score_lt_asym a b : score_lt a b = true -> score_lt b a = false.
Proof.
  destruct a as [x|], b as [y|]; cbn; try discriminate; try reflexivity.
  intros H. apply Z.ltb_lt in H. apply Z.ltb_ge. lia.
Qed.

Lemma avlNodeCmp_antisym a b : avlNodeCmp a b = - avlNodeCmp b a.
Proof.
  unfold avlNodeCmp, score_gt.
  destruct (score_lt (leftScore a) (leftScore b)) eqn:E1.
  { rewrite (score_lt_asym _ _ E1). reflexivity. }
  destruct (score_lt (leftScore b) (leftScore a)) eqn:E2; [reflexivity|].
  destruct (score_lt (rightScore b) (rightScore a)) eqn:E3.
  { rewrite (score_lt_asym _ _ E3). reflexivity. }
  destruct (score_lt (rightScore a) (rightScore b)); reflexivity.
Qed.

(** The test of [avlInsertNode], [avlNodeCmp(locNode,insertNode) > -1],
    holds exactly when the new node does not compare greater than the
    current one. *)
Lemma goes_left_iff loc ins :
  (avlNodeCmp loc ins >? -1) = true <-> avlNodeCmp ins loc <= 0.
Proof.
  rewrite (avlNodeCmp_antisym ins loc), Z.gtb_ltb, Z.ltb_lt. lia.
Qed.

Lemma cmp_at_Some a b na nb s :
  nodes s !! a = Some na -> nodes s !! b = Some nb ->
  cmp_at (Some a) (Some b) s = Ok (avlNodeCmp na nb, s).
Proof.
  intros Ha Hb. unfold cmp_at, bind, load. rewrite Ha, Hb. reflexivity.
Qed.

Lemma bind_modify a nd f s {B} (k : unit -> M B) :
  nodes s !! a = Some nd ->
  bind (modify (Some a) f) k s
    = k tt (mkStore (<[a := f nd]> (nodes s)) (trees s) (dict s) (log s)).
Proof. intros Ha. unfold bind, modify. rewrite Ha. reflexivity. Qed.

(** A property of the node at [a] that [f] respects survives a write of
    [f] to any node. *)
Lemma lookup_modified (P : avlNode -> Prop) f (ns : list avlNode) a c x y :
  (forall z, P z -> P (f z)) ->
  ns !! a = Some x -> P x -> ns !! c = Some y ->
  exists x', <[c := f y]> ns !! a = Some x' /\ P x'.
Proof.
  intros Hf Ha Hx Hc. destruct (decide (c = a)) as [->|Hne].
  - rewrite list_lookup_insert_eq by (eapply lookup_lt_Some; exact Ha).
    rewrite Ha in Hc. injection Hc as <-. eauto.
  - rewrite list_lookup_insert_ne by exact Hne. eauto.
Qed.

Lemma lookup_still_there f (ns : list avlNode) b c y z :
  ns !! b = Some y -> ns !! c = Some z ->
  exists y', <[c := f z]> ns !! b = Some y'.
Proof.
  intros Hb Hc.
  destruct (lookup_modified (fun _ => True) f ns b c y z) as (y' & H & _); eauto.
Qed.

(** Attaching on the left: the call returns, the new node is the left child
    and the right child is as before. *)
Lemma attach_left_links a b nd ni s :
  nodes s !! a = Some nd -> nodes s !! b = Some ni ->
  exists g s' nd',
    attach_left (Some a) (Some b) s = Ok (g, s') /\
    nodes s' !! a = Some nd' /\
    left nd' = Some b /\ right nd' = right nd.
Proof.
  intros Ha Hb. unfold attach_left.
  set (P := fun x : avlNode => left x = Some b /\ right x = right nd).
  erewrite bind_modify by exact Ha.
  assert (Hx1 : <[a := set_left (Some b) nd]> (nodes s) !! a
                = Some (set_left (Some b) nd))
    by (apply list_lookup_insert_eq; eapply lookup_lt_Some; exact Ha).
  assert (Px1 : P (set_left (Some b) nd)) by (split; reflexivity).
  destruct (lookup_still_there (set_left (Some b)) (nodes s) b a ni nd Hb Ha)
    as (y1 & Hy1).
  erewrite bind_modify by exact Hy1.
  destruct (lookup_modified P (set_parent (Some a)) _ a b _ y1
              (fun z Hz => Hz) Hx1 Px1 Hy1) as (x2 & Hx2 & Px2).
  erewrite bind_load by exact Hx2.
  erewrite bind_modify by exact Hx2.
  destruct (lookup_modified P (set_balance (balance x2 - 1)) _ a a x2 x2
              (fun z Hz => Hz) Hx2 Px2 Hx2) as (x3 & Hx3 & Px3).
  erewrite bind_load by exact Hx3.
  eexists _, _, x3. split; [reflexivity|]. split; [exact Hx3 | exact Px3].
Qed.

(** Attaching on the right, likewise. *)
Lemma attach_right_links a b nd ni s :
  nodes s !! a = Some nd -> nodes s !! b = Some ni ->
  exists g s' nd',
    attach_right (Some a) (Some b) s = Ok (g, s') /\
    nodes s' !! a = Some nd' /\
    right nd' = Some b /\ left nd' = left nd.
Proof.
  intros Ha Hb. unfold attach_right.
  set (P := fun x : avlNode => right x = Some b /\ left x = left nd).
  erewrite bind_modify by exact Ha.
  assert (Hx1 : <[a := set_right (Some b) nd]> (nodes s) !! a
                = Some (set_right (Some b) nd))
    by (apply list_lookup_insert_eq; eapply lookup_lt_Some; exact Ha).
  assert (Px1 : P (set_right (Some b) nd)) by (split; reflexivity).
  destruct (lookup_still_there (set_right (Some b)) (nodes s) b a ni nd Hb Ha)
    as (y1 & Hy1).
  erewrite bind_modify by exact Hy1.
  destruct (lookup_modified P (set_parent (Some a)) _ a b _ y1
              (fun z Hz => Hz) Hx1 Px1 Hy1) as (x2 & Hx2 & Px2).
  erewrite bind_load by exact Hx2.
  erewrite bind_modify by exact Hx2.
  destruct (lookup_modified P (set_balance (balance x2 + 1)) _ a a x2 x2
              (fun z Hz => Hz) Hx2 Px2 Hx2) as (x3 & Hx3 & Px3).
  erewrite bind_load by exact Hx3.
  eexists _, _, x3. split; [reflexivity|]. split; [exact Hx3 | exact Px3].
Qed.

Lemma avlInsertNode_step fuel a b nd ni s :
  nodes s !! a = Some nd -> nodes s !! b = Some ni ->
  avlInsertNode (S fuel) (Some a) (Some b) s =
    if avlNodeCmp nd ni >? -1 then
      match left nd with
      | None => attach_left (Some a) (Some b) s
      | Some l =>
          (grew <- avlInsertNode fuel (Some l) (Some b) ;;
           if grew =? 0 then ret 0 else grown_left (Some a)) s
      end
    else
      match right nd with
      | None => attach_right (Some a) (Some b) s
      | Some r =>
          (grew <- avlInsertNode fuel (Some r) (Some b) ;;
           if grew =? 0 then ret 0 else grown_right (Some a)) s
      end.
Proof.
  intros Ha Hb. cbn [avlInsertNode].
  rewrite (bind_step _ _ _ _ _ (cmp_at_Some a b nd ni s Ha Hb)).
  rewrite (bind_load a nd s _ Ha).
  destruct (avlNodeCmp nd ni >? -1);
    [destruct (left nd) | destruct (right nd)]; reflexivity.
Qed.

(** C6, as the code has it: at a node the walk takes the left side exactly
    when the new interval compares less than or equal to the node, and the
    right side when it compares greater.  Taking a side means: an empty
    slot on that side receives the new node and the call returns; an
    occupied one is walked into, and the node is rebalanced afterwards if
    the subtree is reported to have grown. *)
Theorem avlInsertNode_descends fuel a b nd ni s
    (Ha : nodes s !! a = Some nd) (Hb : nodes s !! b = Some ni) :
  (avlNodeCmp ni nd <= 0 ->
     match left nd with
     | None =>
         exists g s' nd',
           avlInsertNode (S fuel) (Some a) (Some b) s = Ok (g, s') /\
           nodes s' !! a = Some nd' /\
           left nd' = Some b /\ right nd' = right nd
     | Some l =>
         avlInsertNode (S fuel) (Some a) (Some b) s =
           (grew <- avlInsertNode fuel (Some l) (Some b) ;;
            if grew =? 0 then ret 0 else grown_left (Some a)) s
     end) /\
  (avlNodeCmp ni nd > 0 ->
     match right nd with
     | None =>
         exists g s' nd',
           avlInsertNode (S fuel) (Some a) (Some b) s = Ok (g, s') /\
           nodes s' !! a = Some nd' /\
           right nd' = Some b /\ left nd' = left nd
     | Some r =>
         avlInsertNode (S fuel) (Some a) (Some b) s =
           (grew <- avlInsertNode fuel (Some r) (Some b) ;;
            if grew =? 0 then ret 0 else grown_right (Some a)) s
     end).
Proof.
  split; intros Hc; rewrite (avlInsertNode_step fuel a b nd ni s Ha Hb).
  - apply goes_left_iff in Hc. rewrite Hc.
    destruct (left nd); [reflexivity|].
    apply attach_left_links with ni; assumption.
  - assert (Hn : (avlNodeCmp nd ni >? -1) = false).
    { destruct (avlNodeCmp nd ni >? -1) eqn:E; [|reflexivity].
      apply goes_left_iff in E. lia. }
    rewrite Hn. destruct (right nd); [reflexivity|].
    apply attach_right_links with ni; assumption.
Qed.

Lemma avlInsertNode_descends_witness :
  avlNodeCmp (new_node 1 1 ObjNull) (new_node 2 2 ObjNull) <= 0 /\
  exists g s' nd',
    avlInsertNode 1 (Some 0%nat) (Some 1%nat) leaf_and_smaller = Ok (g, s') /\
    nodes s' !! 0%nat = Some nd' /\
    left nd' = Some 1%nat /\ right nd' = None.
Proof.
  split; [vm_compute; discriminate|].
  apply (proj1 (avlInsertNode_descends 0 0 1 (new_node 2 2 ObjNull)
                  (new_node 1 1 ObjNull) leaf_and_smaller eq_refl eq_refl)).
  vm_compute. discriminate.
Defined.

(** C6 as stated fails on ties: a new interval equal to the root's does not
    compare less, and the walk still takes the left side: the new node
    becomes the left child and the right slot stays empty. *)
Lemma equal_interval_goes_left :
  exists g s' nd',
    avlNodeCmp (new_node 1 1 ObjNull) (new_node 1 1 ObjNull) = 0 /\
    avlInsertNode 1 (Some 0%nat) (Some 1%nat) two_equal = Ok (g, s') /\
    nodes s' !! 0%nat = Some nd' /\
    left nd' = Some 1%nat /\ right nd' = None.
Proof.
  eexists _, _, _. split; [reflexivity|].
  split; [vm_compute; reflexivity|].
  repeat split.
Qed.

(** ** The IADD command *)

Lemma avlInsert_tree_size fuel t l r o s a s' :
  avlInsert fuel t l r o s = Ok (a, s') ->
  dict s' = dict s /\ tree_size s' t = tree_size s t + 1.
Proof.
  intros H. apply avlInsert_effect in H as (_ & _ & Hd & _ & tr & rt & Et & Ht).
  split; [exact Hd|]. unfold tree_size. rewrite Ht, Et.
  rewrite list_lookup_insert_eq by (eapply lookup_lt_Some; exact Et).
  reflexivity.
Qed.

Lemma add_scores_effect fuel t ivs :
  forall added s n s',
    add_scores fuel t ivs added s = Ok (n, s') ->
    dict s' = dict s /\ tree_size s' t = tree_size s t + (n - added).
Proof.
  induction ivs as [|[mn mx] ivs IH]; intros added s n s' H.
  - injection H as <- <-. split; [reflexivity | lia].
  - cbn [add_scores] in H.
    apply bind_Ok in H as (curobj & s1 & Hc & H).
    injection Hc as <- <-.
    apply bind_Ok in H as (an & s2 & Hi & H).
    apply avlInsert_tree_size in Hi as [Hd2 Ht2].
    apply IH in H as [Hd Ht]. split.
    + rewrite Hd, Hd2. reflexivity.
    + rewrite Ht, Ht2. unfold tree_size. simpl. lia.
Qed.

Lemma arg_Ok argv i s a s' :
  arg argv i s = Ok (a, s') -> s' = s /\ argv !! Z.to_nat i = Some a.
Proof.
  unfold arg. destruct (i <? 0); [discriminate|].
  destruct (argv !! Z.to_nat i); [|discriminate].
  intros [= <- <-]. split; reflexivity.
Qed.

Lemma parse_scores_store getDouble n :
  forall j argv s r s', parse_scores getDouble n j argv s = Ok (r, s') -> s' = s.
Proof.
  induction n as [|n IH]; intros j argv s r s' H.
  - injection H as _ <-. reflexivity.
  - cbn [parse_scores] in H.
    apply bind_Ok in H as (a & s1 & Ha & H). apply arg_Ok in Ha as [-> _].
    destruct (getDouble a); [|injection H as _ <-; reflexivity].
    apply bind_Ok in H as (b & s2 & Hb & H). apply arg_Ok in Hb as [-> _].
    destruct (getDouble b); [|injection H as _ <-; reflexivity].
    apply bind_Ok in H as (rest & s3 & Hr & H). apply IH in Hr as ->.
    injection H as _ <-. reflexivity.
Qed.

(** *** The members are never read *)

Lemma not_member_position_2 j : 0 <= j -> ~ member_position (Z.to_nat (2 + j * 3)).
Proof.
  intros Hj [_ Hm].
  replace (Z.to_nat (2 + j * 3)) with (2 + Z.to_nat j * 3)%nat in Hm by lia.
  rewrite Nat.Div0.mod_add in Hm. discriminate.
Qed.

Lemma not_member_position_3 j : 0 <= j -> ~ member_position (Z.to_nat (3 + j * 3)).
Proof.
  intros Hj [_ Hm].
  replace (Z.to_nat (3 + j * 3)) with (0 + (1 + Z.to_nat j) * 3)%nat in Hm by lia.
  rewrite Nat.Div0.mod_add in Hm. discriminate.
Qed.

Lemma arg_agree argv argv' i s :
  differ_only_in_members argv argv' ->
  ~ member_position (Z.to_nat i) ->
  arg argv i s = arg argv' i s.
Proof.
  intros [_ H] Hi. unfold arg. rewrite (H _ Hi). reflexivity.
Qed.

Lemma bind_agree {A B} (m m' : M A) (k k' : A -> M B) s :
  m s = m' s -> (forall a s1, k a s1 = k' a s1) -> bind m k s = bind m' k' s.
Proof.
  intros Hm Hk. unfold bind. rewrite Hm.
  destruct (m' s) as [[a s1]| |]; [apply Hk | reflexivity | reflexivity].
Qed.

Lemma parse_scores_agree getDouble argv argv' n :
  differ_only_in_members argv argv' ->
  forall j s, 0 <= j ->
    parse_scores getDouble n j argv s = parse_scores getDouble n j argv' s.
Proof.
  intros Hd. induction n as [|n IH]; intros j s Hj; [reflexivity|].
  cbn [parse_scores]. apply bind_agree.
  { apply arg_agree; [exact Hd | apply not_member_position_2, Hj]. }
  intros a s1. destruct (getDouble a); [|reflexivity].
  apply bind_agree.
  { apply arg_agree; [exact Hd | apply not_member_position_3, Hj]. }
  intros b s2. destruct (getDouble b); [|reflexivity].
  apply bind_agree; [apply IH; lia | reflexivity].
Qed.

(** C10: two IADD requests that differ only in the members, run on the same
    store, have the same outcome: the same reply and the same store, and so
    the same tree, scores, size and node payloads. *)
Theorem iadd_ignores_members getDouble typeIsISet fuel argv argv' incr s :
  differ_only_in_members argv argv' ->
  iaddGenericCommand getDouble typeIsISet fuel argv incr s
    = iaddGenericCommand getDouble typeIsISet fuel argv' incr s.
Proof.
  intros Hd. unfold iaddGenericCommand.
  rewrite (proj1 Hd). apply bind_agree.
  { apply arg_agree; [exact Hd|].
    intros [Hge _]. change (Z.to_nat 1) with 1%nat in Hge. lia. }
  intros key s1. destruct (negb _); [reflexivity|].
  apply bind_agree; [|reflexivity].
  apply parse_scores_agree; [exact Hd | lia].
Qed.

Lemma iadd_ignores_members_witness :
  differ_only_in_members iadd_1_2_m iadd_1_2_n /\
  iaddGenericCommand parse_int type_never_iset 5 iadd_1_2_m 0 empty_store
    = iaddGenericCommand parse_int type_never_iset 5 iadd_1_2_n 0 empty_store.
Proof.
  assert (H : differ_only_in_members iadd_1_2_m iadd_1_2_n).
  { split; [reflexivity|].
    intros i Hi. do 5 (destruct i as [|i]; try reflexivity).
    exfalso. apply Hi. split; [lia | reflexivity]. }
  split; [exact H|].
  exact (iadd_ignores_members parse_int type_never_iset 5 iadd_1_2_m
           iadd_1_2_n 0 empty_store H).
Defined.

(** ** Where the code departs from an AVL tree *)

(** C1 at the inserts [(1,1)], [(2,2)], [(3,3)]: no rotation happens, the
    tree is a chain to the right, and the root's [balance] is 1 while its
    right subtree has height 2 and its left subtree height 0. *)
Theorem ascending_inserts_break_balance (fuel : nat) :
  from_empty (2 + fuel) (map pt [1; 2; 3]) = Ok (0%nat, after_1_2_3) /\
  trees after_1_2_3 !! 0%nat = Some (mkAvl 3 (Some 0%nat)) /\
  exists nd,
    nodes after_1_2_3 !! 0%nat = Some nd /\
    balance nd = 1 /\
    height (4 + fuel) (nodes after_1_2_3) (left nd) = Some 0 /\
    height (4 + fuel) (nodes after_1_2_3) (right nd) = Some 2.
Proof.
  split; [vm_compute; reflexivity|]. split; [reflexivity|].
  eexists. split; [reflexivity|]. split; [reflexivity|].
  split; vm_compute; reflexivity.
Qed.

(** The balance can also leave the range: after these seven inserts the
    node [(10,10)] has balance -2. *)
Lemma balance_reaches_minus_two (fuel : nat) :
  exists t s nd,
    from_empty (3 + fuel) (map pt [10; 5; 15; 3; 7; 2; 4]) = Ok (t, s) /\
    nodes s !! 0%nat = Some nd /\ leftScore nd = 10 /\ balance nd = -2.
Proof.
  eexists _, _, _. split; [vm_compute; reflexivity|].
  split; [reflexivity|]. split; reflexivity.
Qed.

(** C5 at the node the new node is attached to.  A childless root gets a
    left child: its balance goes from 0 to -1 and [avlInsertNode] returns 0.
    A root with only a right child gets a left child: its balance goes from
    1 to 0 and [avlInsertNode] returns 1. *)
Theorem attach_reports_growth_inverted (fuel : nat) :
  (exists s' nd',
     avlInsertNode (S fuel) (Some 0%nat) (Some 1%nat) leaf_and_smaller
       = Ok (0, s') /\
     nodes s' !! 0%nat = Some nd' /\ balance nd' = -1) /\
  (exists s' nd',
     avlInsertNode (S fuel) (Some 0%nat) (Some 2%nat) right_heavy_and_smaller
       = Ok (1, s') /\
     nodes s' !! 0%nat = Some nd' /\ balance nd' = 0).
Proof.
  split; eexists _, _; (split; [vm_compute; reflexivity|]);
    split; reflexivity.
Qed.

(** C7 at the inserts [(4,4)], [(2,2)], [(0,0)], [(3,3)]: the fourth insert
    rotates at the root, [tree->root] keeps pointing at the old root, which
    is now a leaf: [size] is 4 and one node is reachable from the root. *)
Theorem rotation_at_root_breaks_size (fuel : nat) :
  from_empty (2 + fuel) (map pt [4; 2; 0; 3]) = Ok (0%nat, after_4_2_0_3) /\
  trees after_4_2_0_3 !! 0%nat = Some (mkAvl 4 (Some 0%nat)) /\
  inorder (2 + fuel) (nodes after_4_2_0_3) (Some 0%nat) = Some [0%nat].
Proof.
  split; [vm_compute; reflexivity|]. split; vm_compute; reflexivity.
Qed.

(** C2 at the same inserts: the in-order traversal of the tree yields the
    interval [(4,4)] alone, not the four inserted intervals. *)
Theorem rotation_at_root_breaks_traversal (fuel : nat) :
  from_empty (2 + fuel) (map pt [4; 2; 0; 3]) = Ok (0%nat, after_4_2_0_3) /\
  traverse (2 + fuel) after_4_2_0_3 0 = Some [(Num 4, Num 4)].
Proof. split; vm_compute; reflexivity. Qed.

(** Inserting can also dereference [NULL]: the right rotation writes
    [locNode->right->parent] after testing [locNode->left]. *)
Lemma insert_can_crash (fuel : nat) :
  from_empty (4 + fuel) (map pt [20; 10; 14; 12; 16; 18; 15])
    = Crash NullDeref.
Proof. vm_compute. reflexivity. Qed.

(** ** Teardown *)

(** The first statement of [avlFreeNode]: release the member, if any. *)
Lemma release_member nd s :
  (match obj nd with
   | ObjNull => ret tt
   | o => emit (EvDecrRef o)
   end) s
  = Ok (tt, mkStore (nodes s) (trees s) (dict s)
                    (log s ++ match obj nd with
                              | ObjNull => []
                              | o => [EvDecrRef o]
                              end)).
Proof.
  destruct s as [ns ts d lg]. destruct (obj nd); unfold ret, emit; simpl;
    rewrite ?app_nil_r; reflexivity.
Qed.

(** A node with a [NULL] child: [avlFreeNode] calls itself on that child
    and reads [node->obj] through [NULL]. *)
Lemma avlFreeNode_null_child fuel a nd s :
  nodes s !! a = Some nd ->
  left nd = None \/ right nd = None ->
  avlFreeNode (S (S fuel)) (Some a) s = Crash NullDeref.
Proof.
  intros Ha Hc. cbn [avlFreeNode].
  rewrite (bind_load a nd s _ Ha).
  rewrite (bind_step _ _ _ _ _ (release_member nd s)).
  destruct (left nd) as [l|] eqn:El.
  - destruct Hc as [Hc|Hc]; [discriminate|].
    rewrite (bind_step _ _ _ tt _ eq_refl).
    erewrite bind_load by exact Ha.
    apply bind_crash. rewrite Hc. reflexivity.
  - apply bind_crash. reflexivity.
Qed.

(** A node with two children: [avlFreeNode] releases the member and frees
    the node, and leaves both children alone. *)
Lemma avlFreeNode_two_children fuel a nd l r s :
  nodes s !! a = Some nd ->
  left nd = Some l -> right nd = Some r ->
  exists s', avlFreeNode (S fuel) (Some a) s = Ok (tt, s') /\
             nodes s' = nodes s /\
             log s' = log s ++ match obj nd with
                               | ObjNull => []
                               | o => [EvDecrRef o]
                               end ++ [EvFreeNode a].
Proof.
  intros Ha Hl Hr. cbn [avlFreeNode].
  rewrite (bind_load a nd s _ Ha).
  rewrite (bind_step _ _ _ _ _ (release_member nd s)).
  rewrite Hl. rewrite (bind_step _ _ _ tt _ eq_refl).
  erewrite bind_load by exact Ha.
  rewrite Hr. rewrite (bind_step _ _ _ tt _ eq_refl).
  eexists. split; [reflexivity|]. simpl.
  split; [reflexivity | apply eq_sym, app_assoc].
Qed.

(** C8 at a tree of one node: [avlFree] dereferences [NULL] and frees
    nothing, with any amount of fuel. *)
Theorem avlFree_one_node_crashes (fuel : nat) :
  avlFree (S (S fuel)) 0 one_node = Crash NullDeref.
Proof.
  unfold avlFree.
  rewrite (bind_step _ _ one_node (mkAvl 1 (Some 0%nat)) one_node eq_refl).
  apply bind_crash. cbn [root].
  apply (avlFreeNode_null_child fuel 0 (new_node 1 5 (ObjVal "m")) one_node);
    [reflexivity | left; reflexivity].
Qed.

(** * Further properties of the code *)

(** ** The comparator *)

(** On nodes whose scores are numbers, [avlNodeCmp a b] is -1 when [a]
    starts first or, on equal starts, ends last; 0 when both scores are
    equal; 1 in the mirrored cases. *)
Theorem avlNodeCmp_meaning a b (la ra lb rb : Z) :
  leftScore a = Num la -> rightScore a = Num ra ->
  leftScore b = Num lb -> rightScore b = Num rb ->
  (avlNodeCmp a b = -1 <-> la < lb \/ (la = lb /\ rb < ra)) /\
  (avlNodeCmp a b = 0 <-> la = lb /\ ra = rb) /\
  (avlNodeCmp a b = 1 <-> lb < la \/ (la = lb /\ ra < rb)).
Proof.
  intros Hla Hra Hlb Hrb. unfold avlNodeCmp, score_gt.
  rewrite Hla, Hra, Hlb, Hrb. cbn [score_lt].
  destruct (Z.ltb_spec la lb); destruct (Z.ltb_spec lb la);
    destruct (Z.ltb_spec rb ra); destruct (Z.ltb_spec ra rb);
    repeat split; intros; try lia.
Qed.

Lemma avlNodeCmp_meaning_witness :
  avlNodeCmp (new_node 1 5 ObjNull) (new_node 1 3 ObjNull) = -1 /\
  (1 < 1 \/ (1 = 1 /\ 3 < 5)).
Proof.
  destruct (avlNodeCmp_meaning (new_node 1 5 ObjNull) (new_node 1 3 ObjNull)
              1 5 1 3 eq_refl eq_refl eq_refl eq_refl) as (H & _ & _).
  assert (Hr : 1 < 1 \/ (1 = 1 /\ 3 < 5)) by (right; lia).
  split; [apply H; exact Hr | exact Hr].
Defined.

(** With a NaN score the comparator answers 0 on intervals that differ:
    both [<] and [>] are false. *)
Lemma avlNodeCmp_nan_is_zero :
  avlNodeCmp (new_node NaN 0 ObjNull) (new_node 1 0 ObjNull) = 0.
Proof. reflexivity. Qed.

(** The comparator only looks at the two scores, answers 0 on a node and
    itself, and flips sign when its arguments are swapped. *)
Theorem avlNodeCmp_refl_swap a b :
  avlNodeCmp a a = 0 /\
  avlNodeCmp b a = - avlNodeCmp a b /\
  (-1 <= avlNodeCmp a b <= 1).
Proof.
  split; [| split; [apply avlNodeCmp_antisym|]].
  - pose proof (avlNodeCmp_antisym a a). lia.
  - unfold avlNodeCmp.
    repeat match goal with
           | |- context [if ?c then _ else _] => destruct c
           end; lia.
Qed.

(** On nodes whose scores are numbers the comparator is transitive: it
    orders them. *)
Theorem avlNodeCmp_trans a b c (la ra lb rb lc rc : Z) :
  leftScore a = Num la -> rightScore a = Num ra ->
  leftScore b = Num lb -> rightScore b = Num rb ->
  leftScore c = Num lc -> rightScore c = Num rc ->
  avlNodeCmp a b <= 0 -> avlNodeCmp b c <= 0 -> avlNodeCmp a c <= 0.
Proof.
  intros Hla Hra Hlb Hrb Hlc Hrc. unfold avlNodeCmp, score_gt.
  rewrite Hla, Hra, Hlb, Hrb, Hlc, Hrc. cbn [score_lt].
  repeat match goal with
         | |- context [?x <? ?y] => destruct (Z.ltb_spec x y)
         end; lia.
Qed.

Lemma avlNodeCmp_trans_witness :
  avlNodeCmp (new_node 1 5 ObjNull) (new_node 1 3 ObjNull) <= 0 /\
  avlNodeCmp (new_node 1 3 ObjNull) (new_node 2 9 ObjNull) <= 0 /\
  avlNodeCmp (new_node 1 5 ObjNull) (new_node 2 9 ObjNull) <= 0.
Proof.
  assert (H1 : avlNodeCmp (new_node 1 5 ObjNull) (new_node 1 3 ObjNull) <= 0)
    by (vm_compute; discriminate).
  assert (H2 : avlNodeCmp (new_node 1 3 ObjNull) (new_node 2 9 ObjNull) <= 0)
    by (vm_compute; discriminate).
  split; [exact H1|]. split; [exact H2|].
  exact (avlNodeCmp_trans (new_node 1 5 ObjNull) (new_node 1 3 ObjNull)
           (new_node 2 9 ObjNull) 1 5 1 3 2 9 eq_refl eq_refl eq_refl eq_refl
           eq_refl eq_refl H1 H2).
Defined.

(** With a NaN score in the middle the comparator is not transitive. *)
Lemma avlNodeCmp_nan_not_transitive :
  avlNodeCmp (new_node 1 5 ObjNull) (new_node NaN 5 ObjNull) = 0 /\
  avlNodeCmp (new_node NaN 5 ObjNull) (new_node 0 5 ObjNull) = 0 /\
  avlNodeCmp (new_node 1 5 ObjNull) (new_node 0 5 ObjNull) = 1.
Proof. repeat split. Qed.

(** ** Rotations *)

(** A completed rotation or balance reset rewrites links and balances only:
    the scores, augmentation fields and payload of every node, the number
    of nodes, the trees, the database and the log are as before. *)
Theorem rotations_keep_payloads p s s' :
  avlLeftRotation p s = Ok (tt, s') \/
  avlRightRotation p s = Ok (tt, s') \/
  avlResetBalance p s = Ok (tt, s') ->
  relinks s s'.
Proof.
  intros [H|[H|H]].
  - exact (avlLeftRotation_relinks p _ _ _ H).
  - exact (avlRightRotation_relinks p _ _ _ H).
  - exact (avlResetBalance_relinks p _ _ _ H).
Qed.

Lemma rotations_keep_payloads_witness :
  avlLeftRotation (Some 0%nat) right_heavy_and_smaller
    = Ok (tt, after_left_rotation) /\
  relinks right_heavy_and_smaller after_left_rotation.
Proof.
  assert (H : avlLeftRotation (Some 0%nat) right_heavy_and_smaller
              = Ok (tt, after_left_rotation)) by (vm_compute; reflexivity).
  split; [exact H|].
  apply (rotations_keep_payloads (Some 0%nat)). left. exact H.
Defined.

(** A rotation towards a missing child reads through [NULL]:
    [avlLeftRotation] needs a right child, [avlRightRotation] a left one. *)
Theorem rotation_without_child_crashes a nd s :
  nodes s !! a = Some nd ->
  (right nd = None -> avlLeftRotation (Some a) s = Crash NullDeref) /\
  (left nd = None -> avlRightRotation (Some a) s = Crash NullDeref).
Proof.
  intros Ha. split; intros Hn.
  - unfold avlLeftRotation. rewrite (bind_load a nd s _ Ha). cbv zeta.
    apply bind_crash. rewrite Hn. reflexivity.
  - unfold avlRightRotation. rewrite (bind_load a nd s _ Ha). cbv zeta.
    apply bind_crash. rewrite Hn. reflexivity.
Qed.

Lemma rotation_without_child_crashes_witness :
  nodes one_node !! 0%nat = Some (new_node 1 5 (ObjVal "m")) /\
  avlLeftRotation (Some 0%nat) one_node = Crash NullDeref /\
  avlRightRotation (Some 0%nat) one_node = Crash NullDeref.
Proof.
  split; [reflexivity|].
  pose proof (rotation_without_child_crashes 0 (new_node 1 5 (ObjVal "m"))
                one_node eq_refl) as [Hl Hr].
  split; [apply Hl | apply Hr]; reflexivity.
Defined.

(** Lookups in a store after writes to known addresses. *)
Ltac lk :=
  repeat first
    [ rewrite list_lookup_insert_eq
        by (rewrite ?length_insert; eapply lookup_lt_Some; eassumption)
    | rewrite list_lookup_insert_ne by congruence ].

Ltac run_load :=
  erewrite bind_load by (cbn [nodes]; lk; first [eassumption | reflexivity]);
  cbn [nodes trees dict log].
Ltac run_modify :=
  erewrite bind_modify by (cbn [nodes]; lk; first [eassumption | reflexivity]);
  cbn [nodes trees dict log].
Ltac run_ret := rewrite (bind_step _ _ _ tt _ eq_refl).

(** [avlLeftRotation] at a node [a] with right child [r], all nodes
    involved being distinct: [r] takes the place of [a] and [a] becomes
    its left child, the left subtree of [r] becomes the right subtree of
    [a] with its parent pointer updated, and the old parent of [a] gets [r]
    on the side the comparator says.  No other node changes. *)
Theorem avlLeftRotation_links a r na nr s :
  nodes s !! a = Some na -> right na = Some r -> nodes s !! r = Some nr ->
  a <> r ->
  (forall c, left nr = Some c ->
     c <> a /\ c <> r /\ is_Some (nodes s !! c)) ->
  (forall p, parent na = Some p ->
     p <> a /\ p <> r /\ left nr <> Some p /\ is_Some (nodes s !! p)) ->
  exists s',
    avlLeftRotation (Some a) s = Ok (tt, s') /\
    nodes s' !! a = Some (set_parent (Some r) (set_right (left nr) na)) /\
    nodes s' !! r = Some (set_parent (parent na) (set_left (Some a) nr)) /\
    (forall c nc, left nr = Some c -> nodes s !! c = Some nc ->
       nodes s' !! c = Some (set_parent (Some a) nc)) /\
    (forall p np, parent na = Some p -> nodes s !! p = Some np ->
       nodes s' !! p =
         Some (if avlNodeCmp np nr >? -1 then set_left (Some r) np
               else set_right (Some r) np)) /\
    (forall x, x <> a -> x <> r -> left nr <> Some x -> parent na <> Some x ->
       nodes s' !! x = nodes s !! x).
Proof.
  intros Ha Hr Hnr Hne Hc Hp. unfold avlLeftRotation.
  run_load. cbv zeta. rewrite Hr. run_load. run_modify. run_modify.
  run_load. cbn [right set_right].
  destruct (left nr) as [c|] eqn:Hl.
  - destruct (Hc c eq_refl) as (Hca & Hcr & [nc Hnc]).
    run_modify. run_load. run_modify. run_modify.
    unfold relink_parent. run_load.
    cbn [parent set_parent set_left set_right].
    destruct (parent na) as [p|] eqn:Hpa.
    + destruct (Hp p eq_refl) as (Hpa' & Hpr & Hpc & [np Hnp]).
      assert (p <> c) by congruence.
      erewrite bind_step
        by (apply cmp_at_Some; cbn [nodes]; lk; first [eassumption | reflexivity]).
      change (avlNodeCmp np (set_parent (Some p) (set_left (Some a) nr)))
        with (avlNodeCmp np nr).
      destruct (avlNodeCmp np nr >? -1) eqn:E.
      all: eexists; split;
        [unfold modify; cbn [nodes]; lk; rewrite Hnp; reflexivity|];
        cbn [nodes]; repeat split; intros; simplify_eq; lk; rewrite ?E;
        try reflexivity; try congruence.
    + eexists. split; [reflexivity|].
      cbn [nodes]; repeat split; intros; simplify_eq; lk;
        try reflexivity; try congruence.
  - run_ret. run_load. run_modify. run_modify.
    unfold relink_parent. run_load.
    cbn [parent set_parent set_left set_right].
    destruct (parent na) as [p|] eqn:Hpa.
    + destruct (Hp p eq_refl) as (Hpa' & Hpr & Hpc & [np Hnp]).
      erewrite bind_step
        by (apply cmp_at_Some; cbn [nodes]; lk; first [eassumption | reflexivity]).
      change (avlNodeCmp np (set_parent (Some p) (set_left (Some a) nr)))
        with (avlNodeCmp np nr).
      destruct (avlNodeCmp np nr >? -1) eqn:E.
      all: eexists; split;
        [unfold modify; cbn [nodes]; lk; rewrite Hnp; reflexivity|];
        cbn [nodes]; repeat split; intros; simplify_eq; lk; rewrite ?E;
        try reflexivity; try congruence.
    + eexists. split; [reflexivity|].
      cbn [nodes]; repeat split; intros; simplify_eq; lk;
        try reflexivity; try congruence.
Qed.

Lemma avlLeftRotation_links_witness :
  exists s',
    avlLeftRotation (Some 1%nat) right_chain = Ok (tt, s') /\
    (left <$> nodes s' !! 1%nat) = Some None /\
    (right <$> nodes s' !! 1%nat) = Some (Some 3%nat) /\
    (parent <$> nodes s' !! 1%nat) = Some (Some 2%nat) /\
    (left <$> nodes s' !! 2%nat) = Some (Some 1%nat) /\
    (parent <$> nodes s' !! 2%nat) = Some (Some 0%nat) /\
    (parent <$> nodes s' !! 3%nat) = Some (Some 1%nat) /\
    (right <$> nodes s' !! 0%nat) = Some (Some 2%nat).
Proof.
  destruct (avlLeftRotation_links 1 2
              (set_parent (Some 0%nat) (set_right (Some 2%nat) (new_node 20 20 ObjNull)))
              (set_parent (Some 1%nat) (set_left (Some 3%nat) (new_node 30 30 ObjNull)))
              right_chain eq_refl eq_refl eq_refl)
    as (s' & Hrun & Ha & Hr & Hc & Hp & _).
  - lia.
  - intros c [= <-]. repeat split; [lia | lia | eexists; reflexivity].
  - intros p [= <-]. repeat split; [lia | lia | discriminate | eexists; reflexivity].
  - exists s'. split; [exact Hrun|].
    rewrite Ha, Hr, (Hc 3%nat _ eq_refl eq_refl), (Hp 0%nat _ eq_refl eq_refl).
    repeat split.
Defined.

(** [avlRightRotation] at a node [a] with left child [l]: [l] takes the
    place of [a], [a] becomes its right child and receives the right
    subtree of [l] as its left subtree.  When a subtree moves this way the
    code sets the parent pointer of the right child [d] of [a] (which must
    exist), not of the subtree that moved: that one, like every other node,
    is left as it was. *)
Theorem avlRightRotation_links a l na nl s :
  nodes s !! a = Some na -> left na = Some l -> nodes s !! l = Some nl ->
  a <> l ->
  (forall c, right nl = Some c ->
     exists d, right na = Some d /\ d <> a /\ d <> l /\ is_Some (nodes s !! d)) ->
  (forall p, parent na = Some p ->
     p <> a /\ p <> l /\ (right nl <> None -> right na <> Some p) /\
     is_Some (nodes s !! p)) ->
  exists s',
    avlRightRotation (Some a) s = Ok (tt, s') /\
    nodes s' !! a = Some (set_parent (Some l) (set_left (right nl) na)) /\
    nodes s' !! l = Some (set_parent (parent na) (set_right (Some a) nl)) /\
    (forall d nd, right nl <> None -> right na = Some d ->
       nodes s !! d = Some nd ->
       nodes s' !! d = Some (set_parent (Some a) nd)) /\
    (forall p np, parent na = Some p -> nodes s !! p = Some np ->
       nodes s' !! p =
         Some (if avlNodeCmp np nl >? -1 then set_left (Some l) np
               else set_right (Some l) np)) /\
    (forall x, x <> a -> x <> l ->
       (right nl <> None -> right na <> Some x) -> parent na <> Some x ->
       nodes s' !! x = nodes s !! x).
Proof.
  intros Ha Hl Hnl Hne Hc Hp. unfold avlRightRotation.
  run_load. cbv zeta. rewrite Hl. run_load. run_modify. run_modify.
  run_load. cbn [left right set_left].
  destruct (right nl) as [c|] eqn:Hr.
  - destruct (Hc c eq_refl) as (d & Hd & Hda & Hdl & [nd Hnd]).
    rewrite Hd. run_modify. run_load. run_modify. run_modify.
    unfold relink_parent. run_load.
    cbn [parent set_parent set_left set_right].
    destruct (parent na) as [p|] eqn:Hpa.
    + destruct (Hp p eq_refl) as (Hpa' & Hpl & Hpd & [np Hnp]).
      assert (p <> d) by (intros ->; apply Hpd; [discriminate | exact Hd]).
      erewrite bind_step
        by (apply cmp_at_Some; cbn [nodes]; lk; first [eassumption | reflexivity]).
      change (avlNodeCmp np (set_parent (Some p) (set_right (Some a) nl)))
        with (avlNodeCmp np nl).
      destruct (avlNodeCmp np nl >? -1) eqn:E.
      all: eexists; split;
        [unfold modify; cbn [nodes]; lk; rewrite Hnp; reflexivity|];
        cbn [nodes]; repeat split; intros; simplify_eq; lk; rewrite ?E;
        try reflexivity; try congruence.
      all: match goal with
           | Hx : Some _ <> None -> _ <> Some ?x |- _ !! ?x = _ =>
               assert (d <> x)
                 by (intros ->; apply Hx; [discriminate | reflexivity])
           end; lk; reflexivity.
    + eexists. split; [reflexivity|].
      cbn [nodes]; repeat split; intros; simplify_eq; lk;
        try reflexivity; try congruence.
      match goal with
      | Hx : Some _ <> None -> _ <> Some ?x |- _ !! ?x = _ =>
          assert (d <> x)
            by (intros ->; apply Hx; [discriminate | reflexivity])
      end. lk. reflexivity.
  - run_ret. run_load. run_modify. run_modify.
    unfold relink_parent. run_load.
    cbn [parent set_parent set_left set_right].
    destruct (parent na) as [p|] eqn:Hpa.
    + destruct (Hp p eq_refl) as (Hpa' & Hpl & _ & [np Hnp]).
      erewrite bind_step
        by (apply cmp_at_Some; cbn [nodes]; lk; first [eassumption | reflexivity]).
      change (avlNodeCmp np (set_parent (Some p) (set_right (Some a) nl)))
        with (avlNodeCmp np nl).
      destruct (avlNodeCmp np nl >? -1) eqn:E.
      all: eexists; split;
        [unfold modify; cbn [nodes]; lk; rewrite Hnp; reflexivity|];
        cbn [nodes]; repeat split; intros; simplify_eq; lk; rewrite ?E;
        try reflexivity; try congruence.
    + eexists. split; [reflexivity|].
      cbn [nodes]; repeat split; intros; simplify_eq; lk;
        try reflexivity; try congruence.
Qed.

Lemma avlRightRotation_links_witness :
  exists s',
    avlRightRotation (Some 1%nat) left_chain = Ok (tt, s') /\
    (left <$> nodes s' !! 1%nat) = Some (Some 3%nat) /\
    (parent <$> nodes s' !! 1%nat) = Some (Some 2%nat) /\
    (right <$> nodes s' !! 2%nat) = Some (Some 1%nat) /\
    (parent <$> nodes s' !! 2%nat) = Some (Some 0%nat) /\
    (left <$> nodes s' !! 0%nat) = Some (Some 2%nat) /\
    (parent <$> nodes s' !! 4%nat) = Some (Some 1%nat) /\
    (parent <$> nodes s' !! 3%nat) = Some (Some 2%nat).
Proof.
  destruct (avlRightRotation_links 1 2
              (set_parent (Some 0%nat)
                 (set_right (Some 4%nat) (set_left (Some 2%nat) (new_node 30 30 ObjNull))))
              (set_parent (Some 1%nat) (set_right (Some 3%nat) (new_node 20 20 ObjNull)))
              left_chain eq_refl eq_refl eq_refl)
    as (s' & Hrun & Ha & Hl & Hd & Hp & Hx).
  - lia.
  - intros c [= <-]. exists 4%nat.
    repeat split; [lia | lia | eexists; reflexivity].
  - intros p [= <-].
    repeat split; [lia | lia | discriminate | eexists; reflexivity].
  - exists s'. split; [exact Hrun|].
    rewrite Ha, Hl, (Hp 0%nat _ eq_refl eq_refl).
    rewrite (Hd 4%nat _ ltac:(discriminate) eq_refl eq_refl).
    rewrite (Hx 3%nat) by (try lia; try discriminate; intros _; discriminate).
    repeat split.
Defined.

(** When the left child [l] of [a] has a right subtree and [a] has no right
    child, [avlRightRotation] writes [locNode->right->parent] through
    [NULL]. *)
Theorem avlRightRotation_null_right_crashes a l c na nl s :
  nodes s !! a = Some na -> left na = Some l -> nodes s !! l = Some nl ->
  a <> l -> right nl = Some c -> right na = None ->
  avlRightRotation (Some a) s = Crash NullDeref.
Proof.
  intros Ha Hl Hnl Hne Hr Hn. unfold avlRightRotation.
  run_load. cbv zeta. rewrite Hl. run_load. run_modify. run_modify.
  run_load. cbn [left right set_left]. rewrite Hr, Hn.
  apply bind_crash. reflexivity.
Qed.

Lemma avlRightRotation_null_right_crashes_witness :
  avlRightRotation (Some 1%nat) left_chain_bare = Crash NullDeref.
Proof.
  apply (avlRightRotation_null_right_crashes 1 2 3
           (set_parent (Some 0%nat) (set_left (Some 2%nat) (new_node 30 30 ObjNull)))
           (set_parent (Some 1%nat) (set_right (Some 3%nat) (new_node 20 20 ObjNull)))
           left_chain_bare);
    first [reflexivity | lia].
Defined.

Lemma bind_assoc {A B C} (m : M A) (k : A -> M B) (k' : B -> M C) s :
  bind (bind m k) k' s = bind m (fun x => bind (k x) k') s.
Proof. unfold bind. destruct (m s) as [[a s1]| |]; reflexivity. Qed.

(** [avlResetBalance] at a node with both children and a balance of -1, 0
    or 1: the left child gets -1 if the balance was 1 and 0 otherwise, the
    right child gets 1 if the balance was -1 and 0 otherwise, the node gets
    0, and no link changes. *)
Theorem avlResetBalance_table a l r na nl nr s :
  nodes s !! a = Some na -> left na = Some l -> right na = Some r ->
  nodes s !! l = Some nl -> nodes s !! r = Some nr ->
  a <> l -> a <> r -> l <> r ->
  -1 <= balance na <= 1 ->
  exists s',
    avlResetBalance (Some a) s = Ok (tt, s') /\
    nodes s' !! a = Some (set_balance 0 na) /\
    nodes s' !! l = Some (set_balance (if balance na =? 1 then -1 else 0) nl) /\
    nodes s' !! r = Some (set_balance (if balance na =? -1 then 1 else 0) nr) /\
    (forall x, x <> a -> x <> l -> x <> r -> nodes s' !! x = nodes s !! x) /\
    trees s' = trees s /\ dict s' = dict s /\ log s' = log s.
Proof.
  intros Ha Hl Hr Hnl Hnr Hal Har Hlr Hb. unfold avlResetBalance.
  run_load.
  assert (Hcase : balance na = -1 \/ balance na = 0 \/ balance na = 1) by lia.
  destruct Hcase as [E|[E|E]]; rewrite E; cbn [Z.eqb Pos.eqb];
    rewrite !bind_assoc, Hl; run_modify; cbv beta; rewrite !bind_assoc;
    run_load; rewrite Hr; cbv beta; rewrite ?bind_assoc; run_modify;
    (eexists; split; [unfold modify; cbn [nodes]; lk; rewrite Ha; reflexivity|]);
    cbn [nodes trees dict log]; repeat split; intros; lk; reflexivity.
Qed.

Lemma avlResetBalance_table_witness :
  exists s',
    avlResetBalance (Some 1%nat) left_chain = Ok (tt, s') /\
    (balance <$> nodes s' !! 1%nat) = Some 0 /\
    (balance <$> nodes s' !! 2%nat) = Some 0 /\
    (balance <$> nodes s' !! 4%nat) = Some 0.
Proof.
  destruct (avlResetBalance_table 1 2 4
              (set_parent (Some 0%nat)
                 (set_right (Some 4%nat) (set_left (Some 2%nat) (new_node 30 30 ObjNull))))
              (set_parent (Some 1%nat) (set_right (Some 3%nat) (new_node 20 20 ObjNull)))
              (set_parent (Some 1%nat) (new_node 35 35 ObjNull))
              left_chain eq_refl eq_refl eq_refl eq_refl eq_refl)
    as (s' & Hrun & Ha & Hl & Hr & _); try lia.
  - cbn. lia.
  - exists s'. split; [exact Hrun|]. rewrite Ha, Hl, Hr. repeat split.
Defined.

(** ** Insertion *)

Lemma returns_bind {A B} (P : B -> Prop) (m : M A) (k : A -> M B) :
  (forall a, returns P (k a)) -> returns P (bind m k).
Proof.
  intros Hk s b s' H. apply bind_Ok in H as (a & s1 & _ & H2).
  exact (Hk a _ _ _ H2).
Qed.

Lemma returns_ret {A} (P : A -> Prop) (a : A) : P a -> returns P (ret a).
Proof. intros Ha s b s' [= <- _]. exact Ha. Qed.

Ltac returns_all :=
  repeat lazymatch goal with
    | |- returns _ (bind _ _) => apply returns_bind; intros ?
    | |- returns _ (ret (if ?b then _ else _)) => destruct b
    | |- returns _ (ret _) => apply returns_ret; unfold zero_or_one; auto
    | |- returns _ (if ?b then _ else _) => destruct b
    end.

Lemma attach_left_returns p q : returns zero_or_one (attach_left p q).
Proof. unfold attach_left. returns_all. Qed.

Lemma attach_right_returns p q : returns zero_or_one (attach_right p q).
Proof. unfold attach_right. returns_all. Qed.

Lemma grown_left_returns p : returns zero_or_one (grown_left p).
Proof. unfold grown_left. returns_all. Qed.

Lemma grown_right_returns p : returns zero_or_one (grown_right p).
Proof. unfold grown_right. returns_all. Qed.

Lemma avlInsertNode_returns fuel :
  forall p q, returns zero_or_one (avlInsertNode fuel p q).
Proof.
  destruct fuel as [|fuel]; intros p q.
  - intros s a s' H. discriminate.
  - cbn [avlInsertNode]. returns_all;
      try lazymatch goal with
        | |- returns _ (match ?x with _ => _ end) => destruct x
        end; returns_all;
      lazymatch goal with
      | |- returns _ (attach_left _ _) => apply attach_left_returns
      | |- returns _ (attach_right _ _) => apply attach_right_returns
      | |- returns _ (grown_left _) => apply grown_left_returns
      | |- returns _ (grown_right _) => apply grown_right_returns
      end.
Qed.

(** A completed [avlInsertNode] returns 0 or 1, and has rewritten links and
    balances only: scores, augmentation fields and payloads of all nodes,
    the number of nodes, the trees, the database and the log are as
    before. *)
Theorem avlInsertNode_keeps_payloads fuel p q s g s' :
  avlInsertNode fuel p q s = Ok (g, s') ->
  (g = 0 \/ g = 1) /\ relinks s s'.
Proof.
  intros H. split.
  - exact (avlInsertNode_returns fuel p q _ _ _ H).
  - exact (avlInsertNode_relinks fuel p q _ _ _ H).
Qed.

Lemma avlInsertNode_keeps_payloads_witness :
  exists g s',
    avlInsertNode 1 (Some 0%nat) (Some 2%nat) right_heavy_and_smaller
      = Ok (g, s') /\
    (g = 0 \/ g = 1) /\ relinks right_heavy_and_smaller s'.
Proof.
  eexists _, _. split; [vm_compute; reflexivity|].
  apply (avlInsertNode_keeps_payloads 1 (Some 0%nat) (Some 2%nat)
           right_heavy_and_smaller).
  vm_compute. reflexivity.
Defined.

Lemma avlInsert_root fuel t l r o s a s' tr :
  avlInsert fuel t l r o s = Ok (a, s') ->
  trees s !! t = Some tr ->
  trees s' !! t =
    Some (mkAvl (size tr + 1)
                (match root tr with None => Some a | Some rt => Some rt end)).
Proof.
  unfold avlInsert, avlCreateNode. intros H Et.
  assert (Hlt : (t < length (trees s))%nat) by (eapply lookup_lt_Some; exact Et).
  apply bind_Ok in H as (an & s1 & Halloc & H). injection Halloc as <- <-.
  apply bind_Ok in H as (tr0 & s2 & Htr & H).
  unfold load_tree in Htr. cbn [trees] in Htr. rewrite Et in Htr.
  injection Htr as <- <-.
  apply bind_Ok in H as ([] & s3 & Hmid & H).
  apply bind_Ok in H as (tr3 & s4 & Htr3 & H).
  apply bind_Ok in H as ([] & s5 & Hst & H).
  injection H as <- <-.
  assert (Hs3 : trees s3 !! t =
                Some (mkAvl (size tr)
                        (match root tr with
                         | None => Some (length (nodes s))
                         | Some rt => Some rt
                         end))).
  { destruct (root tr) as [rt|] eqn:Er.
    - apply bind_Ok in Hmid as (g & s3' & Hins & Hret). injection Hret as <-.
      apply avlInsertNode_relinks in Hins as (_ & -> & _). cbn [trees].
      rewrite Et, <- Er. destruct tr; reflexivity.
    - unfold store_tree in Hmid. cbn [trees] in Hmid. rewrite Et in Hmid.
      injection Hmid as <-. cbn [trees].
      apply list_lookup_insert_eq. exact Hlt. }
  unfold load_tree in Htr3. rewrite Hs3 in Htr3. injection Htr3 as <- <-.
  unfold store_tree in Hst. rewrite Hs3 in Hst. injection Hst as <-.
  cbn [trees size root].
  apply list_lookup_insert_eq. eapply lookup_lt_Some. exact Hs3.
Qed.

Lemma avlInsert_full fuel t l r o s a s' :
  avlInsert fuel t l r o s = Ok (a, s') ->
  exists tr nd,
    trees s !! t = Some tr /\
    a = length (nodes s) /\
    length (nodes s') = S (length (nodes s)) /\
    trees s' =
      <[t := mkAvl (size tr + 1)
               (match root tr with None => Some a | Some rt => Some rt end)]>
        (trees s) /\
    nodes s' !! a = Some nd /\
    leftScore nd = l /\ rightScore nd = r /\ obj nd = o /\
    subLeftMax nd = 0 /\ subRightMax nd = 0 /\
    (forall x old, nodes s !! x = Some old ->
       exists new, nodes s' !! x = Some new /\ same_payload old new) /\
    dict s' = dict s /\ log s' = log s.
Proof.
  intros H.
  destruct (avlInsert_effect _ _ _ _ _ _ _ _ H)
    as (Ha & Hn & Hd & Hl & tr & rt & Et & Ht).
  pose proof (avlInsert_root _ _ _ _ _ _ _ _ tr H Et) as Hroot.
  rewrite Ht, list_lookup_insert_eq in Hroot
    by (eapply lookup_lt_Some; exact Et).
  injection Hroot as Hrt.
  pose proof (Forall2_length _ _ _ Hn) as Hlen.
  rewrite length_app in Hlen. cbn [length] in Hlen.
  destruct (nodes s' !! a) as [nd|] eqn:Ea.
  2: { apply lookup_ge_None in Ea. lia. }
  assert (Hnew : same_payload (new_node l r o) nd).
  { eapply Forall2_lookup_lr; [exact Hn | | exact Ea].
    rewrite Ha, lookup_app_r by lia.
    replace (length (nodes s) - length (nodes s))%nat with 0%nat by lia.
    reflexivity. }
  destruct Hnew as (H1 & H2 & H3 & H4 & H5).
  exists tr, nd. rewrite Ht, Hrt.
  repeat split; try assumption; try lia.
  intros x old Hx.
  destruct (Forall2_lookup_l _ _ _ x old Hn) as (new & Hnew & Hp).
  { rewrite lookup_app_l by (eapply lookup_lt_Some; exact Hx). exact Hx. }
  exists new. split; assumption.
Qed.

(** A completed [avlInsert]: the new node is the next free address, holds
    the given scores and payload with both augmentation fields 0; the
    tree's [size] has grown by one; its [root] is the new node if the tree
    was empty and is unchanged otherwise; the other trees, the database and
    the log are as before; the nodes that were there keep their scores and
    payloads. *)
Theorem avlInsert_spec fuel t l r o s a s' :
  avlInsert fuel t l r o s = Ok (a, s') ->
  exists tr nd,
    trees s !! t = Some tr /\
    a = length (nodes s) /\
    length (nodes s') = S (length (nodes s)) /\
    trees s' =
      <[t := mkAvl (size tr + 1)
               (match root tr with None => Some a | Some rt => Some rt end)]>
        (trees s) /\
    nodes s' !! a = Some nd /\
    leftScore nd = l /\ rightScore nd = r /\ obj nd = o /\
    subLeftMax nd = 0 /\ subRightMax nd = 0 /\
    (forall x old, nodes s !! x = Some old ->
       exists new, nodes s' !! x = Some new /\ same_payload old new) /\
    dict s' = dict s /\ log s' = log s.
Proof. exact (avlInsert_full fuel t l r o s a s'). Qed.

Lemma avlInsert_spec_witness :
  avlInsert 5 0 1 5 (ObjVal "m") leaf_and_smaller
    = Ok (2%nat, after_insert_1_5) /\
  trees after_insert_1_5 = [mkAvl 2 (Some 0%nat)] /\
  length (nodes after_insert_1_5) = 3%nat.
Proof.
  assert (H : avlInsert 5 0 1 5 (ObjVal "m") leaf_and_smaller
              = Ok (2%nat, after_insert_1_5)) by (vm_compute; reflexivity).
  split; [exact H|].
  destruct (avlInsert_spec _ _ _ _ _ _ _ _ H)
    as (tr & nd & Et & _ & Hlen & Ht & _).
  injection Et as <-. split; [exact Ht | exact Hlen].
Defined.

Lemma avlInsert_on_empty fuel t l r o s tr :
  trees s !! t = Some tr -> root tr = None ->
  avlInsert fuel t l r o s =
    Ok (length (nodes s),
        mkStore (nodes s ++ [new_node l r o])
                (<[t := mkAvl (size tr + 1) (Some (length (nodes s)))]> (trees s))
                (dict s) (log s)).
Proof.
  intros Et Er. unfold avlInsert, avlCreateNode.
  rewrite (bind_step _ _ _ _ _ eq_refl).
  erewrite bind_step by (unfold load_tree; cbn [trees]; rewrite Et; reflexivity).
  rewrite Er.
  assert (Hlt : (t < length (trees s))%nat) by (eapply lookup_lt_Some; exact Et).
  erewrite bind_step
    by (unfold store_tree; cbn [trees]; rewrite Et; reflexivity).
  erewrite bind_step
    by (unfold load_tree; cbn [trees];
        rewrite list_lookup_insert_eq by exact Hlt; reflexivity).
  erewrite bind_step
    by (unfold store_tree; cbn [trees];
        rewrite list_lookup_insert_eq by exact Hlt; reflexivity).
  cbn [nodes trees dict log size root]. rewrite list_insert_insert_eq.
  reflexivity.
Qed.

(** [avlInsert] into an empty tree never fails and needs no fuel: the new
    node becomes the root and nothing else changes. *)
Theorem avlInsert_empty_tree fuel t l r o s tr :
  trees s !! t = Some tr -> root tr = None ->
  avlInsert fuel t l r o s =
    Ok (length (nodes s),
        mkStore (nodes s ++ [new_node l r o])
                (<[t := mkAvl (size tr + 1) (Some (length (nodes s)))]> (trees s))
                (dict s) (log s)).
Proof. exact (avlInsert_on_empty fuel t l r o s tr). Qed.

Lemma avlInsert_empty_tree_witness :
  avlInsert 0 0 1 5 (ObjVal "m") (mkStore [] [mkAvl 0 None] ∅ [])
    = Ok (0%nat, one_node).
Proof.
  exact (avlInsert_empty_tree 0 0 1 5 (ObjVal "m")
           (mkStore [] [mkAvl 0 None] ∅ []) (mkAvl 0 None) eq_refl eq_refl).
Defined.

Lemma Forall2_same_payload_refl l : Forall2 same_payload l l.
Proof. induction l; constructor; auto. Qed.

Lemma insert_all_spec fuel t ivs :
  forall s u s' tr,
    insert_all fuel t ivs s = Ok (u, s') ->
    trees s !! t = Some tr ->
    trees s' =
      <[t := mkAvl (size tr + Z.of_nat (length ivs))
               (match root tr with
                | Some rt => Some rt
                | None => match ivs with
                          | [] => None
                          | _ :: _ => Some (length (nodes s))
                          end
                end)]> (trees s) /\
    Forall2 same_payload
      (nodes s ++ ((fun iv => new_node iv.1.1 iv.1.2 iv.2) <$> ivs)) (nodes s') /\
    dict s' = dict s /\ log s' = log s.
Proof.
  induction ivs as [|[[l r] o] ivs IH]; intros s u s' tr H Et.
  - injection H as _ <-. cbn [length]. rewrite fmap_nil, app_nil_r, Z.add_0_r.
    repeat split; [ | apply Forall2_same_payload_refl].
    symmetry. apply list_insert_id. rewrite Et. f_equal.
    destruct tr as [sz [rt|]]; reflexivity.
  - cbn [insert_all] in H. apply bind_Ok in H as (a & s1 & H1 & H2).
    pose proof (avlInsert_root _ _ _ _ _ _ _ _ tr H1 Et) as Hroot.
    destruct (avlInsert_effect _ _ _ _ _ _ _ _ H1)
      as (Ha & Hn & Hd & Hl & tr0 & rt & Et0 & Ht).
    destruct (IH _ _ _ _ H2 Hroot) as (Ht' & Hn' & Hd' & Hl').
    cbn [root size] in Ht'.
    repeat split; [ | | congruence | congruence].
    + rewrite Ht', Ht, list_insert_insert_eq. f_equal.
      cbn [length]. f_equal; [lia|].
      subst a. destruct (root tr); reflexivity.
    + rewrite fmap_cons. rewrite (app_assoc _ [_] _ : nodes s ++ _ :: _ = _).
      eapply Forall2_trans; [ | | exact Hn'].
      * intros x y z. apply same_payload_trans.
      * apply Forall2_app; [exact Hn | apply Forall2_same_payload_refl].
Qed.

(** A completed run of inserts from an empty tree: [size] is the number of
    inserts, [root] is the node of the first insert for good, and the
    [i]-th allocated node holds the scores and payload of the [i]-th insert
    with both augmentation fields 0.  Nothing is logged or added to the
    database. *)
Theorem from_empty_counts fuel ivs t s :
  from_empty fuel ivs = Ok (t, s) ->
  t = 0%nat /\
  trees s = [mkAvl (Z.of_nat (length ivs))
                   (match ivs with [] => None | _ :: _ => Some 0%nat end)] /\
  Forall2 (fun iv nd =>
             leftScore nd = iv.1.1 /\ rightScore nd = iv.1.2 /\
             obj nd = iv.2 /\ zero_aug nd)
          ivs (nodes s) /\
  dict s = ∅ /\ log s = [].
Proof.
  unfold from_empty. intros H.
  apply bind_Ok in H as (t0 & s1 & Hc & H). injection Hc as <- <-.
  apply bind_Ok in H as (u & s2 & Hi & H). injection H as <- <-.
  destruct (insert_all_spec _ _ _ _ _ _ (mkAvl 0 None) Hi eq_refl)
    as (Ht & Hn & Hd & Hl).
  cbn in Ht. cbn [nodes dict log app] in Hn, Hd, Hl.
  split; [reflexivity|]. split; [|split; [|split; assumption]].
  { rewrite Ht. destruct ivs; reflexivity. }
  apply (proj1 (Forall2_fmap_l _ _ _ _)) in Hn.
  eapply Forall2_impl; [exact Hn|].
  intros [[l r] o] nd (H1 & H2 & H3 & H4 & H5). cbn in *.
  repeat split; assumption.
Qed.

Lemma from_empty_counts_witness :
  from_empty 5 (map pt [1; 2; 3]) = Ok (0%nat, after_1_2_3) /\
  trees after_1_2_3 = [mkAvl 3 (Some 0%nat)] /\
  length (nodes after_1_2_3) = 3%nat.
Proof.
  assert (H : from_empty 5 (map pt [1; 2; 3]) = Ok (0%nat, after_1_2_3))
    by (vm_compute; reflexivity).
  split; [exact H|].
  destruct (from_empty_counts _ _ _ _ H) as (_ & Ht & Hn & _).
  split; [exact Ht|].
  symmetry. exact (Forall2_length _ _ _ Hn).
Defined.

(** ** Teardown *)

(** [avlFree] on an empty tree frees the tree structure and nothing else,
    with any amount of fuel. *)
Theorem avlFree_empty_tree fuel t tr s :
  trees s !! t = Some tr -> root tr = None ->
  avlFree fuel t s =
    Ok (tt, mkStore (nodes s) (trees s) (dict s) (log s ++ [EvFreeTree t])).
Proof.
  intros Et Er. unfold avlFree.
  erewrite bind_step by (unfold load_tree; rewrite Et; reflexivity).
  rewrite Er. rewrite (bind_step _ _ _ tt _ eq_refl). reflexivity.
Qed.

Lemma avlFree_empty_tree_witness :
  avlFree 0 0 (mkStore [] [mkAvl 0 None] ∅ [])
    = Ok (tt, mkStore [] [mkAvl 0 None] ∅ [EvFreeTree 0]).
Proof.
  exact (avlFree_empty_tree 0 0 (mkAvl 0 None)
           (mkStore [] [mkAvl 0 None] ∅ []) eq_refl eq_refl).
Defined.

(** [avlFree] on a tree with a root never frees more than the root.  If the
    root lacks a child the call reads through [NULL]; if it has both, the
    member of the root is released, the root and the tree structure are
    freed, and the nodes below are neither visited nor freed. *)
Theorem avlFree_frees_root_only fuel t tr a nd s :
  trees s !! t = Some tr -> root tr = Some a -> nodes s !! a = Some nd ->
  avlFree (S (S fuel)) t s =
    match left nd, right nd with
    | Some _, Some _ =>
        Ok (tt, mkStore (nodes s) (trees s) (dict s)
                  (log s ++ match obj nd with
                            | ObjNull => []
                            | o => [EvDecrRef o]
                            end ++ [EvFreeNode a; EvFreeTree t]))
    | _, _ => Crash NullDeref
    end.
Proof.
  intros Et Er Ha. unfold avlFree.
  erewrite bind_step by (unfold load_tree; rewrite Et; reflexivity).
  rewrite Er.
  destruct (left nd) as [l|] eqn:El; [destruct (right nd) as [r|] eqn:Erg|].
  - cbn [avlFreeNode]. rewrite bind_assoc.
    rewrite (bind_load a nd s _ Ha). rewrite bind_assoc.
    rewrite (bind_step _ _ _ _ _ (release_member nd s)).
    rewrite El, bind_assoc. rewrite (bind_step _ _ _ tt _ eq_refl).
    rewrite bind_assoc. erewrite bind_load by exact Ha.
    rewrite Erg, bind_assoc. rewrite (bind_step _ _ _ tt _ eq_refl).
    unfold bind, emit, ret. cbn [nodes trees dict log].
    rewrite <- !app_assoc. reflexivity.
  - apply bind_crash.
    apply (avlFreeNode_null_child fuel a nd s Ha). right. exact Erg.
  - apply bind_crash.
    apply (avlFreeNode_null_child fuel a nd s Ha). left. exact El.
Qed.

Lemma avlFree_frees_root_only_witness :
  avlFree 2 0 after_insert_1_5 = Crash NullDeref.
Proof.
  exact (avlFree_frees_root_only 0 0 (mkAvl 2 (Some 0%nat)) 0
           (set_balance (-1) (set_left (Some 2%nat) (new_node 2 2 ObjNull)))
           after_insert_1_5 eq_refl eq_refl eq_refl).
Defined.

(** ** The command *)

Lemma parse_scores_Some getDouble argv n :
  forall j s ivs s', 0 <= j ->
    parse_scores getDouble n j argv s = Ok (Some ivs, s') ->
    length ivs = n /\
    (n <> 0%nat -> 3 * (j + Z.of_nat n) < Z.of_nat (length argv)).
Proof.
  induction n as [|n IH]; intros j s ivs s' Hj H.
  - injection H as <- _. split; [reflexivity | congruence].
  - cbn [parse_scores] in H.
    apply bind_Ok in H as (a & s1 & Ha & H). apply arg_Ok in Ha as [-> _].
    destruct (getDouble a); [|discriminate].
    apply bind_Ok in H as (b & s2 & Hb & H). apply arg_Ok in Hb as [-> Hb].
    apply lookup_lt_Some in Hb.
    destruct (getDouble b); [|discriminate].
    apply bind_Ok in H as (rest & s3 & Hr & H).
    destruct rest as [rest|]; [|discriminate].
    injection H as <- _.
    apply IH in Hr as [Hlen Hidx]; [|lia].
    split; [cbn [length]; congruence|].
    intros _. destruct n as [|n]; [lia|].
    specialize (Hidx ltac:(congruence)). lia.
Qed.

(** What a request that was answered with an integer went through. *)
Lemma iadd_int_inv getDouble typeIsISet fuel argv incr s n s' :
  iaddGenericCommand getDouble typeIsISet fuel argv incr s = Ok (ReplyInt n, s') ->
  exists key ivs t s1,
    argv !! 1%nat = Some key /\
    Z.rem (Z.of_nat (length argv) - 2) 3 = 0 /\
    parse_scores getDouble (Z.to_nat (Z.quot (Z.of_nat (length argv) - 2) 2))
      0 argv s = Ok (Some ivs, s) /\
    (dict s !! key = Some (DbISet t) /\ typeIsISet s t = true /\ s1 = s \/
     dict s !! key = None /\ t = length (trees s) /\
     s1 = mkStore (nodes s) (trees s ++ [mkAvl 0 None])
                  (<[key := DbISet t]> (dict s)) (log s)) /\
    add_scores fuel t ivs 0 s1 = Ok (n, s').
Proof.
  intros H. unfold iaddGenericCommand in H.
  apply bind_Ok in H as (key & s1 & Hk & H). apply arg_Ok in Hk as [-> Hk].
  change (Z.to_nat 1) with 1%nat in Hk.
  destruct (Z.rem (Z.of_nat (length argv) - 2) 3 =? 0) eqn:Hrem;
    [|discriminate].
  apply Z.eqb_eq in Hrem. cbn [negb] in H.
  apply bind_Ok in H as (parsed & s2 & Hp & H).
  pose proof (parse_scores_store _ _ _ _ _ _ _ Hp) as ->.
  destruct parsed as [ivs|]; [|discriminate].
  apply bind_Ok in H as (found & s3 & Hf & H). injection Hf as <- <-.
  destruct (dict s !! key) as [[t|]|] eqn:Ed.
  - apply bind_Ok in H as (isiset & s3 & Hty & H). injection Hty as <- <-.
    destruct (typeIsISet s t) eqn:Ety; [|discriminate].
    apply bind_Ok in H as (added & s4 & Hadd & H). injection H as <- <-.
    exists key, ivs, t, s. repeat split; auto.
  - discriminate.
  - apply bind_Ok in H as (t & s4 & Hc & H). injection Hc as <- <-.
    apply bind_Ok in H as ([] & s5 & Hdb & H). injection Hdb as <-.
    apply bind_Ok in H as (added & s6 & Hadd & H). injection H as <- <-.
    eexists key, ivs, _, _. repeat split; eauto.
Qed.

Lemma iadd_error_unchanged getDouble typeIsISet fuel argv incr s r s' :
  iaddGenericCommand getDouble typeIsISet fuel argv incr s = Ok (r, s') ->
  (forall n, r <> ReplyInt n) ->
  s' = s.
Proof.
  intros H Hr. unfold iaddGenericCommand in H.
  apply bind_Ok in H as (key & s1 & Hk & H). apply arg_Ok in Hk as [-> Hk].
  destruct (negb _); [injection H as _ <-; reflexivity|].
  apply bind_Ok in H as (parsed & s2 & Hp & H).
  apply parse_scores_store in Hp as ->.
  destruct parsed as [ivs|]; [|injection H as _ <-; reflexivity].
  apply bind_Ok in H as (found & s3 & Hf & H). injection Hf as <- <-.
  destruct (dict s !! key) as [[t|]|].
  - apply bind_Ok in H as (isiset & s3 & Hty & H). injection Hty as <- <-.
    destruct (typeIsISet s t); [|injection H as _ <-; reflexivity].
    apply bind_Ok in H as (added & s4 & _ & H). injection H as <- _.
    destruct (Hr added eq_refl).
  - injection H as _ <-. reflexivity.
  - apply bind_Ok in H as (t & s4 & _ & H).
    apply bind_Ok in H as ([] & s5 & _ & H).
    apply bind_Ok in H as (added & s6 & _ & H). injection H as <- _.
    destruct (Hr added eq_refl).
Qed.

(** A request answered with an error has changed nothing: the command
    replies an integer or leaves the store as it was. *)
Theorem iadd_error_leaves_store getDouble typeIsISet fuel argv incr s r s' :
  iaddGenericCommand getDouble typeIsISet fuel argv incr s = Ok (r, s') ->
  (forall n, r <> ReplyInt n) ->
  s' = s.
Proof. exact (iadd_error_unchanged getDouble typeIsISet fuel argv incr s r s'). Qed.

Lemma iadd_error_leaves_store_witness :
  iaddGenericCommand parse_int type_never_iset 5 ["IADD"; "k"; "1"; "x"; "m"]%string 0
    after_first_iadd = Ok (NotDoubleErr, after_first_iadd).
Proof.
  assert (H : exists s', iaddGenericCommand parse_int type_never_iset 5
                ["IADD"; "k"; "1"; "x"; "m"]%string 0 after_first_iadd
              = Ok (NotDoubleErr, s'))
    by (eexists; vm_compute; reflexivity).
  destruct H as [s' H].
  rewrite H. f_equal. f_equal.
  apply (iadd_error_leaves_store parse_int type_never_iset 5 _ 0 _ _ _ H).
  intros n. discriminate.
Defined.

(** A request whose argument count is not 2 plus a multiple of 3 is
    answered with a syntax error, whatever the arguments are. *)
Theorem iadd_syntax_error getDouble typeIsISet fuel argv incr s :
  (2 <= length argv)%nat ->
  ((length argv - 2) mod 3)%nat <> 0%nat ->
  iaddGenericCommand getDouble typeIsISet fuel argv incr s = Ok (SyntaxErr, s).
Proof.
  intros Hlen Hmod. unfold iaddGenericCommand.
  destruct (argv !! 1%nat) as [key|] eqn:Ek.
  2: { apply lookup_ge_None in Ek. lia. }
  erewrite bind_step
    by (unfold arg; change (Z.to_nat 1) with 1%nat; rewrite Ek; reflexivity).
  destruct (Z.rem (Z.of_nat (length argv) - 2) 3 =? 0) eqn:E; [|reflexivity].
  apply Z.eqb_eq in E. rewrite Z.rem_mod_nonneg in E by lia.
  exfalso. apply Hmod.
  apply Nat2Z.inj. rewrite Nat2Z.inj_mod, Nat2Z.inj_sub by lia. exact E.
Qed.

Lemma iadd_syntax_error_witness :
  iaddGenericCommand parse_int type_never_iset 5 ["IADD"; "k"; "1"; "2"]%string 0
    after_first_iadd = Ok (SyntaxErr, after_first_iadd).
Proof.
  apply (iadd_syntax_error parse_int type_never_iset 5
           ["IADD"; "k"; "1"; "2"]%string 0);
    cbn; [lia | discriminate].
Defined.

(** On a key that holds a value of another type the command never replies
    an integer and never changes the store. *)
Theorem iadd_wrong_type getDouble typeIsISet fuel argv incr key s r s' :
  argv !! 1%nat = Some key ->
  dict s !! key = Some DbOther ->
  iaddGenericCommand getDouble typeIsISet fuel argv incr s = Ok (r, s') ->
  (r = SyntaxErr \/ r = NotDoubleErr \/ r = WrongTypeErr) /\ s' = s.
Proof.
  intros Hkey Hd H.
  assert (Hr : r = SyntaxErr \/ r = NotDoubleErr \/ r = WrongTypeErr).
  { destruct r as [| | |n]; auto.
    apply iadd_int_inv in H as (k & ivs & t & s1 & Hk & _ & _ & Hcase & _).
    rewrite Hkey in Hk. injection Hk as <-.
    destruct Hcase as [[Hc _]|[Hc _]]; congruence. }
  split; [exact Hr|].
  apply (iadd_error_unchanged _ _ _ _ _ _ _ _ H).
  intros n ->. destruct Hr as [?|[?|?]]; discriminate.
Qed.

Lemma iadd_wrong_type_witness :
  iaddGenericCommand parse_int type_never_iset 5 iadd_1_2_m 0 other_typed_key
    = Ok (WrongTypeErr, other_typed_key).
Proof.
  assert (H : exists s', iaddGenericCommand parse_int type_never_iset 5 iadd_1_2_m 0
                other_typed_key = Ok (WrongTypeErr, s'))
    by (eexists; vm_compute; reflexivity).
  destruct H as [s' H]. rewrite H. f_equal. f_equal.
  refine (proj2 (iadd_wrong_type parse_int type_never_iset 5 iadd_1_2_m 0
                   "k"%string other_typed_key WrongTypeErr s' eq_refl _ H)).
  vm_compute. reflexivity.
Defined.

(** A request without score pairs, [IADD key]: on a missing key an empty
    set is created and stored under the key and the answer is 0; on a key
    that holds a tree stored by an earlier IADD nothing changes, and the
    answer is 0 if the type read on the tree gives [REDIS_ISET] and the
    type error if not.  On a key of another type the answer is the type
    error. *)
Theorem iadd_no_pairs getDouble typeIsISet fuel cmd key incr s :
  iaddGenericCommand getDouble typeIsISet fuel [cmd; key] incr s =
    match dict s !! key with
    | None =>
        Ok (ReplyInt 0,
            mkStore (nodes s) (trees s ++ [mkAvl 0 None])
                    (<[key := DbISet (length (trees s))]> (dict s)) (log s))
    | Some (DbISet t) =>
        if typeIsISet s t then Ok (ReplyInt 0, s) else Ok (WrongTypeErr, s)
    | Some DbOther => Ok (WrongTypeErr, s)
    end.
Proof.
  unfold iaddGenericCommand. rewrite (bind_step _ _ _ key s eq_refl).
  change (Z.of_nat (length [cmd; key])) with 2.
  change (negb (Z.rem (2 - 2) 3 =? 0)) with false.
  change (Z.to_nat (Z.quot (2 - 2) 2)) with 0%nat.
  cbv iota. cbn [parse_scores].
  rewrite (bind_step _ _ _ (Some []) s eq_refl).
  rewrite (bind_step _ _ _ (dict s !! key) s eq_refl).
  destruct (dict s !! key) as [[t|]|]; [|reflexivity|reflexivity].
  rewrite (bind_step _ _ _ (typeIsISet s t) s eq_refl).
  destruct (typeIsISet s t); reflexivity.
Qed.

Lemma add_scores_count fuel t ivs :
  forall added s n s',
    add_scores fuel t ivs added s = Ok (n, s') ->
    n = added + Z.of_nat (length ivs) /\
    length (nodes s') = (length (nodes s) + 2 * length ivs)%nat /\
    length (trees s') = length (trees s) /\
    log s' = log s.
Proof.
  induction ivs as [|[mn mx] ivs IH]; intros added s n s' H.
  - injection H as <- <-. cbn [length]. repeat split; lia.
  - cbn [add_scores] in H.
    apply bind_Ok in H as (curobj & s1 & Hc & H). injection Hc as <- <-.
    apply bind_Ok in H as (an & s2 & Hi & H).
    apply avlInsert_full in Hi
      as (tr & nd & Et & _ & Hlen & Ht & _ & _ & _ & _ & _ & _ & _ & _ & Hl).
    apply IH in H as (Hn & Hlen' & Hlt & Hl').
    cbn [nodes trees log] in *. rewrite length_app in Hlen. cbn [length] in *.
    repeat split; [lia | lia | | congruence].
    rewrite Hlt, Ht, length_insert. reflexivity.
Qed.

Lemma iadd_int_shape getDouble typeIsISet fuel argv incr s n s' :
  iaddGenericCommand getDouble typeIsISet fuel argv incr s = Ok (ReplyInt n, s') ->
  (length argv = 2%nat /\ n = 0) \/ (length argv = 5%nat /\ n = 1).
Proof.
  intros H.
  apply iadd_int_inv in H as (key & ivs & t & s1 & Hk & Hrem & Hp & _ & Hadd).
  apply lookup_lt_Some in Hk.
  apply add_scores_count in Hadd as (Hn & _).
  apply parse_scores_Some in Hp as [Hlen Hidx]; [|lia].
  rewrite Z.rem_mod_nonneg in Hrem by lia.
  rewrite Z.quot_div_nonneg in Hlen, Hidx by lia.
  remember (Z.of_nat (length argv)) as argc eqn:Hargc.
  assert (Hq : 0 <= (argc - 2) / 2) by (apply Z.div_pos; lia).
  destruct (decide (length ivs = 0%nat)) as [E0|Hne].
  - left. rewrite E0 in Hn, Hlen.
    assert (Hz : (argc - 2) / 2 = 0) by lia.
    clear Hidx Hlen. Z.div_mod_to_equations. split; lia.
  - right. rewrite <- Hlen in Hidx. specialize (Hidx Hne).
    assert (Hl : Z.of_nat (length ivs) = (argc - 2) / 2) by lia.
    assert (Hq1 : 1 <= (argc - 2) / 2) by lia.
    rewrite Hl in Hidx, Hn. clear Hlen Hl.
    Z.div_mod_to_equations. split; lia.
Qed.

(** The command never adds more than one pair: a request answered with an
    integer had no pair and is answered 0, or had one pair and is answered
    1. *)
Theorem iadd_adds_at_most_one getDouble typeIsISet fuel argv incr s n s' :
  iaddGenericCommand getDouble typeIsISet fuel argv incr s = Ok (ReplyInt n, s') ->
  (length argv = 2%nat /\ n = 0) \/ (length argv = 5%nat /\ n = 1).
Proof. exact (iadd_int_shape getDouble typeIsISet fuel argv incr s n s'). Qed.

Lemma iadd_adds_at_most_one_witness :
  iaddGenericCommand parse_int type_never_iset 5 iadd_1_2_m 0 empty_store
    = Ok (ReplyInt 1, after_first_iadd) /\
  (length iadd_1_2_m = 2%nat /\ 1 = 0 \/ length iadd_1_2_m = 5%nat /\ 1 = 1).
Proof.
  assert (H : iaddGenericCommand parse_int type_never_iset 5 iadd_1_2_m 0
                empty_store = Ok (ReplyInt 1, after_first_iadd))
    by (vm_compute; reflexivity).
  split; [exact H|].
  exact (iadd_adds_at_most_one parse_int type_never_iset 5 iadd_1_2_m 0
           _ _ _ H).
Defined.

(** Two requests with two pairs.  When every argument the first loop reads
    is a valid double, the loop reads past the end of the argument vector;
    when it meets an invalid one first, the request ends with that error. *)
Lemma two_pairs_out_of_bounds :
  iaddGenericCommand parse_int type_never_iset 5
    ["IADD"; "k"; "1"; "2"; "m"; "3"; "4"; "n"]%string 0 empty_store
  = Crash OutOfBounds.
Proof. vm_compute. reflexivity. Qed.

Lemma two_pairs_invalid_double :
  iaddGenericCommand parse_int type_never_iset 5
    ["IADD"; "k"; "1"; "2"; "m"; "x"; "4"; "n"]%string 0 empty_store
  = Ok (NotDoubleErr, empty_store).
Proof. vm_compute. reflexivity. Qed.

(** A request answered with an integer [n] leaves an interval set under its
    key, has touched no other key, has allocated two nodes per pair (the
    copy and the tree node) and at most one tree (when the key was
    missing), and has freed nothing. *)
Theorem iadd_footprint getDouble typeIsISet fuel argv incr key s n s' :
  argv !! 1%nat = Some key ->
  iaddGenericCommand getDouble typeIsISet fuel argv incr s = Ok (ReplyInt n, s') ->
  exists t,
    dict s' !! key = Some (DbISet t) /\
    (forall k, k <> key -> dict s' !! k = dict s !! k) /\
    Z.of_nat (length (nodes s')) = Z.of_nat (length (nodes s)) + 2 * n /\
    length (trees s') =
      match dict s !! key with
      | None => S (length (trees s))
      | Some _ => length (trees s)
      end /\
    log s' = log s.
Proof.
  intros Hkey H.
  apply iadd_int_inv in H as (k & ivs & t & s1 & Hk & _ & _ & Hcase & Hadd).
  rewrite Hkey in Hk. injection Hk as <-.
  pose proof (add_scores_effect _ _ _ _ _ _ _ Hadd) as [Hd _].
  apply add_scores_count in Hadd as (Hn & Hlen & Hlt & Hl).
  exists t.
  destruct Hcase as [(Hc & _ & ->)|(Hc & -> & ->)]; cbn [nodes trees dict log] in *.
  - rewrite Hd, Hc, Hlt. repeat split; [lia | assumption].
  - rewrite Hd, Hc, Hlt, lookup_insert_eq, length_app. cbn [length].
    repeat split; [ | lia | lia | assumption].
    intros k' Hne. apply lookup_insert_ne. congruence.
Qed.

Lemma iadd_footprint_witness :
  iaddGenericCommand parse_int type_never_iset 5 iadd_1_2_m 0 empty_store
    = Ok (ReplyInt 1, after_first_iadd) /\
  dict after_first_iadd !! "k"%string = Some (DbISet 0) /\
  length (nodes after_first_iadd) = 2%nat /\
  length (trees after_first_iadd) = 1%nat.
Proof.
  assert (H : iaddGenericCommand parse_int type_never_iset 5 iadd_1_2_m 0
                empty_store = Ok (ReplyInt 1, after_first_iadd))
    by (vm_compute; reflexivity).
  split; [exact H|].
  destruct (iadd_footprint parse_int type_never_iset 5 iadd_1_2_m 0
              "k"%string _ _ _ eq_refl H) as (t & _ & _ & _ & Ht & _).
  split; [vm_compute; reflexivity|]. split; [reflexivity | exact Ht].
Defined.

(** One pair on a missing key: the command never fails, whatever the fuel.
    It makes a tree for the key, a detached copy node whose payload is the
    tree, and the tree's root node, whose payload is the copy; the answer
    is 1.  The member argument is stored nowhere. *)
Theorem iadd_single_new_key getDouble typeIsISet fuel cmd key a b m incr mn mx s :
  getDouble a = Some mn -> getDouble b = Some mx ->
  dict s !! key = None ->
  iaddGenericCommand getDouble typeIsISet fuel [cmd; key; a; b; m] incr s =
    Ok (ReplyInt 1,
        mkStore (nodes s ++ [new_node mn mx (ObjTree (length (trees s)));
                             new_node mn mx (ObjNode (length (nodes s)))])
                (trees s ++ [mkAvl 1 (Some (S (length (nodes s))))])
                (<[key := DbISet (length (trees s))]> (dict s))
                (log s)).
Proof.
  intros Ha Hb Hd. unfold iaddGenericCommand.
  rewrite (bind_step _ _ _ key s eq_refl).
  change (Z.of_nat (length [cmd; key; a; b; m])) with 5.
  change (negb (Z.rem (5 - 2) 3 =? 0)) with false.
  change (Z.to_nat (Z.quot (5 - 2) 2)) with 1%nat.
  cbv iota. cbn [parse_scores].
  rewrite bind_assoc, (bind_step _ _ _ a s eq_refl), Ha.
  rewrite bind_assoc, (bind_step _ _ _ b s eq_refl), Hb.
  rewrite bind_assoc, (bind_step _ _ _ (Some []) s eq_refl).
  rewrite (bind_step _ _ _ (Some [(mn, mx)]) s eq_refl).
  rewrite (bind_step _ _ _ (dict s !! key) s eq_refl), Hd.
  rewrite (bind_step _ _ _ _ _ eq_refl).
  rewrite (bind_step _ _ _ tt _ eq_refl).
  cbn [add_scores]. rewrite !bind_assoc.
  rewrite (bind_step _ _ _ _ _ eq_refl). cbn [nodes trees dict log].
  rewrite ?bind_assoc. erewrite bind_step.
  2: { apply avlInsert_on_empty with (tr := mkAvl 0 None); [|reflexivity].
       cbn [trees]. rewrite lookup_app_r by lia.
       replace (length (trees s) - length (trees s))%nat with 0%nat by lia.
       reflexivity. }
  cbn [nodes trees dict log size]. unfold bind, ret.
  rewrite <- app_assoc, length_app. cbn [app length].
  rewrite insert_app_r_alt by lia.
  replace (length (trees s) - length (trees s))%nat with 0%nat by lia.
  replace (length (nodes s) + 1)%nat with (S (length (nodes s))) by lia.
  reflexivity.
Qed.

Lemma iadd_single_new_key_witness :
  iaddGenericCommand parse_int type_never_iset 0 iadd_1_2_m 0 empty_store
    = Ok (ReplyInt 1, after_first_iadd).
Proof.
  etransitivity.
  - exact (iadd_single_new_key parse_int type_never_iset 0 "IADD" "k" "1" "2"
             "m" 0 1 2 empty_store eq_refl eq_refl eq_refl).
  - vm_compute. reflexivity.
Defined.

(** *** The reply counts the triples *)






Lemma bind_agree_on {A B} (m : M A) (k k' : A -> M B) s :
  (forall a s1, m s = Ok (a, s1) -> k a s1 = k' a s1) ->
  bind m k s = bind m k' s.
Proof.
  intros Hk. unfold bind.
  destruct (m s) as [[a s1]| |]; [apply Hk | |]; reflexivity.
Qed.

(** The command reads the type of one tree only, the one stored under its
    key, and in the store it was started in. *)
Lemma iadd_type_read getDouble (ty ty' : store -> nat -> bool) fuel argv incr s :
  (forall key t, argv !! 1%nat = Some key -> dict s !! key = Some (DbISet t) ->
                 ty s t = ty' s t) ->
  iaddGenericCommand getDouble ty fuel argv incr s
    = iaddGenericCommand getDouble ty' fuel argv incr s.
Proof.
  intros Hty. unfold iaddGenericCommand.
  apply bind_agree_on. intros key s1 Hk. apply arg_Ok in Hk as [-> Hk].
  cbv zeta. destruct (negb _); [reflexivity|].
  apply bind_agree_on. intros parsed s1 Hp. apply parse_scores_store in Hp as ->.
  destruct parsed as [ivs|]; [|reflexivity].
  apply bind_agree_on. intros found s1 Hf.
  unfold lookupKeyWrite in Hf. injection Hf as <- <-.
  destruct (dict s !! key) as [[t|]|] eqn:Hd; try reflexivity.
  apply bind_agree; [|reflexivity].
  unfold read_type. rewrite (Hty key t Hk Hd). reflexivity.
Qed.

(** Whatever the type read gives, the second request is not answered 0. *)
Lemma second_request_not_zero (typeIsISet : store -> nat -> bool) :
  exists r s',
    iaddCommand parse_int typeIsISet 5 iadd_1_2_m after_first_iadd = Ok (r, s') /\
    r <> ReplyInt 0.
Proof.
  assert (Hk : forall key t, iadd_1_2_m !! 1%nat = Some key ->
                 dict after_first_iadd !! key = Some (DbISet t) -> t = 0%nat).
  { intros key t [= <-] Hd. vm_compute in Hd. congruence. }
  unfold iaddCommand.
  destruct (typeIsISet after_first_iadd 0%nat) eqn:E.
  - exists (ReplyInt 1), after_second_iadd. split; [|discriminate].
    rewrite (iadd_type_read _ typeIsISet type_always_iset).
    + vm_compute. reflexivity.
    + intros key t Hkey Hd. rewrite (Hk key t Hkey Hd). exact E.
  - exists WrongTypeErr, after_first_iadd. split; [|discriminate].
    rewrite (iadd_type_read _ typeIsISet type_never_iset).
    + vm_compute. reflexivity.
    + intros key t Hkey Hd. rewrite (Hk key t Hkey Hd). exact E.
Qed.

(** ** The first inserts *)

Lemma avlNodeCmp_scores a b :
  avlNodeCmp a b =
    score_cmp (leftScore a) (rightScore a) (leftScore b) (rightScore b).
Proof. reflexivity. Qed.

Lemma score_cmp_true (l1 r1 l2 r2 : Z) :
  (score_cmp l1 r1 l2 r2 >? -1) = true -> interval_le (l2, r2) (l1, r1).
Proof.
  unfold score_cmp, avlNodeCmp, score_gt, interval_le.
  cbn [leftScore rightScore new_node fst snd score_lt]. rewrite !Z.gtb_ltb.
  destruct (Z.ltb_spec l1 l2), (Z.ltb_spec l2 l1), (Z.ltb_spec r2 r1),
    (Z.ltb_spec r1 r2); cbn; intros Hc; try discriminate; lia.
Qed.

Lemma score_cmp_false (l1 r1 l2 r2 : Z) :
  (score_cmp l1 r1 l2 r2 >? -1) = false -> interval_le (l1, r1) (l2, r2).
Proof.
  unfold score_cmp, avlNodeCmp, score_gt, interval_le.
  cbn [leftScore rightScore new_node fst snd score_lt]. rewrite !Z.gtb_ltb.
  destruct (Z.ltb_spec l1 l2), (Z.ltb_spec l2 l1), (Z.ltb_spec r2 r1),
    (Z.ltb_spec r1 r2); cbn; intros Hc; try discriminate; lia.
Qed.

(** [avlInsert] into a non-empty tree is [avlInsertNode] from the root on
    the store with the new node appended, followed by [size + 1]; the
    [root] field is not written. *)
Lemma avlInsert_nonempty fuel t l r o s tr rt g s1 :
  trees s !! t = Some tr -> root tr = Some rt ->
  avlInsertNode fuel (Some rt) (Some (length (nodes s)))
    (mkStore (nodes s ++ [new_node l r o]) (trees s) (dict s) (log s))
    = Ok (g, s1) ->
  avlInsert fuel t l r o s =
    Ok (length (nodes s),
        mkStore (nodes s1) (<[t := mkAvl (size tr + 1) (Some rt)]> (trees s))
                (dict s) (log s)).
Proof.
  intros Et Er Hins.
  pose proof (avlInsertNode_relinks _ _ _ _ _ _ Hins) as (_ & Ht & Hd & Hl).
  cbn [trees dict log] in Ht, Hd, Hl.
  unfold avlInsert, avlCreateNode.
  rewrite (bind_step _ _ _ _ _ eq_refl).
  erewrite bind_step by (unfold load_tree; cbn [trees]; rewrite Et; reflexivity).
  rewrite Er, bind_assoc, (bind_step _ _ _ _ _ Hins).
  rewrite (bind_step _ _ _ tt _ eq_refl).
  assert (Hld : load_tree t s1 = Ok (tr, s1))
    by (unfold load_tree; rewrite Ht, Et; reflexivity).
  rewrite (bind_step _ _ _ _ _ Hld).
  assert (Hst : store_tree t (mkAvl (size tr + 1) (root tr)) s1
                = Ok (tt, mkStore (nodes s1)
                            (<[t := mkAvl (size tr + 1) (root tr)]> (trees s1))
                            (dict s1) (log s1)))
    by (unfold store_tree; rewrite Ht, Et; reflexivity).
  rewrite (bind_step _ _ _ _ _ Hst).
  unfold ret. rewrite Ht, Hd, Hl, Er. reflexivity.
Qed.

(** Run [avlInsertNode] on a store of known nodes, the comparisons being
    decided by hypotheses. *)
Ltac solve_node :=
  erewrite avlInsertNode_step by reflexivity;
  rewrite avlNodeCmp_scores;
  cbn [leftScore rightScore new_node set_left set_right set_parent set_balance];
  repeat match goal with
         | E : (score_cmp _ _ _ _ >? -1) = _ |- _ => rewrite E
         end;
  cbn [left right new_node set_left set_right set_parent set_balance];
  first
    [ reflexivity
    | erewrite bind_step by solve_node; reflexivity ].

Ltac solve_insert :=
  first
    [ apply avlInsert_on_empty with (tr := mkAvl 0 None); reflexivity
    | eapply avlInsert_nonempty; [reflexivity | reflexivity | solve_node] ].

Lemma sorted_three (x y z : Z * Z) :
  interval_le x y -> interval_le y z -> interval_le x z ->
  StronglySorted interval_le [x; y; z].
Proof.
  intros Hxy Hyz Hxz.
  apply SSorted_cons; [apply SSorted_cons; [apply SSorted_cons|]|].
  - apply SSorted_nil.
  - apply Forall_nil_2.
  - apply Forall_cons_2; [exact Hyz | apply Forall_nil_2].
  - apply Forall_cons_2; [exact Hxy|].
    apply Forall_cons_2; [exact Hxz | apply Forall_nil_2].
Qed.

(** The first three inserts into a new tree never fail, and when the
    scores are numbers the tree they build is a search tree: its in-order
    traversal yields the three intervals ordered by the comparator (start
    ascending, on equal starts the later end first). *)
Theorem three_inserts_sorted fuel (l1 r1 : Z) o1 (l2 r2 : Z) o2 (l3 r3 : Z) o3 :
  exists s out,
    from_empty (2 + fuel)
      [(Num l1, Num r1, o1); (Num l2, Num r2, o2); (Num l3, Num r3, o3)]
      = Ok (0%nat, s) /\
    traverse (4 + fuel) s 0 = Some (num_interval <$> out) /\
    out ≡ₚ [(l1, r1); (l2, r2); (l3, r3)] /\
    StronglySorted interval_le out.
Proof.
  destruct (score_cmp l1 r1 l2 r2 >? -1) eqn:E12;
  destruct (score_cmp l1 r1 l3 r3 >? -1) eqn:E13;
  destruct (score_cmp l2 r2 l3 r3 >? -1) eqn:E23.
  all: eexists _, _; split;
    [ unfold from_empty; cbn [insert_all Nat.add];
      rewrite (bind_step _ _ _ _ _ eq_refl), !bind_assoc;
      erewrite bind_step by solve_insert; rewrite !bind_assoc;
      cbn [nodes trees dict log empty_store length app];
      erewrite bind_step by solve_insert; rewrite !bind_assoc;
      cbn [nodes trees dict log length app];
      erewrite bind_step by solve_insert;
      reflexivity
    | ].
  all: split;
    [ lazymatch goal with
      | |- ?L = _ => let v := eval cbv in L in change L with v
      end;
      lazymatch goal with
      | |- Some [(Num ?a1, Num ?b1); (Num ?a2, Num ?b2); (Num ?a3, Num ?b3)]
           = Some (_ <$> ?o) =>
          unify o [(a1, b1); (a2, b2); (a3, b3)]; reflexivity
      end
    | ].
  all: split; [solve_Permutation|].
  all: repeat match goal with
         | E : (score_cmp _ _ _ _ >? -1) = true |- _ =>
             apply score_cmp_true in E
         | E : (score_cmp _ _ _ _ >? -1) = false |- _ =>
             apply score_cmp_false in E
         end.
  all: unfold interval_le in *; cbn [fst snd] in *.
  all: apply sorted_three; unfold interval_le; cbn [fst snd]; lia.
Qed.

(** With a NaN score the same three inserts still complete, and the
    traversal is not ordered by the comparator: [(0,3)] comes after
    [(1,7)]. *)
Lemma three_inserts_nan_unsorted (fuel : nat) :
  exists s,
    from_empty (2 + fuel)
      [(NaN, Num 5, ObjNull); (Num 0, Num 3, ObjNull); (Num 1, Num 7, ObjNull)]
      = Ok (0%nat, s) /\
    traverse (4 + fuel) s 0
      = Some [(Num 1, Num 7); (NaN, Num 5); (Num 0, Num 3)].
Proof.
  eexists. split; [vm_compute; reflexivity|]. vm_compute. reflexivity.
Qed.
